(** * Verification of the faculty scheduling worker ([scheduler_worker.js])

    The worker runs an exhaustive backtracking search with branch-and-bound
    pruning.  It assigns one lecture slot to every entry of a faculty list
    and minimises the number of assignments whose time slot the faculty
    member does not prefer.

    The JavaScript is embedded shallowly: the closure variables become the
    variables of a section, the mutable objects ([schedule],
    [assignedLectureSlots], [facultyTimeSlotMap], [progressState]) become the
    fields of a state record that every function passes on, and the outbound
    channel ([self.postMessage]) together with the suspension points
    ([await yieldWorker()]) becomes a chronological list of events. *)

From stdpp Require Import gmap strings list.
From Stdlib Require Import ZArith Lia.

#[local] Set Warnings "-clear-no-such-hyp".
#[local] Arguments Nat.modulo : simpl never.

(** ** Data model *)

Abbreviation FacultyMember := string (only parsing).
Abbreviation TimeSlot := string (only parsing).
Abbreviation LectureId := nat (only parsing).

(** A lecture slot [{ id, timeSlot }]. *)
Record LectureSlot := { id : LectureId; timeSlot : TimeSlot }.

(** The objects [{ lecture, isHappy }] that the search pushes on [possible]
    and stores in [schedule]. *)
Record Assignment := { lecture : LectureSlot; isHappy : bool }.

#[global] Instance LectureSlot_eq_dec : EqDecision LectureSlot.
Proof. solve_decision. Defined.

#[global] Instance Assignment_eq_dec : EqDecision Assignment.
Proof. solve_decision. Defined.

(** The messages of [self.postMessage], by their [type] field. *)
Inductive Message :=
| solutionUpdate (entries : list (FacultyMember * Assignment)) (score : Z)
| progressUpdate (index : nat) (facultyName : FacultyMember) (count : nat)
| complete (combos : nat) (score : Z)
| error (message : string).

(** What the worker does that the outside can observe: a posted message, or
    a suspension [await yieldWorker()] during which the host may deliver
    inbound messages. *)
Inductive Event :=
| postMessage (m : Message)
| yieldWorker.

#[global] Instance Message_eq_dec : EqDecision Message.
Proof. solve_decision. Defined.

#[global] Instance Event_eq_dec : EqDecision Event.
Proof. solve_decision. Defined.

(** [progressState]. *)
Record ProgressState := {
  facultyIndex : nat;
  combinations : nat;
  bestScore : Z }.

(** The mutable objects of one call of [solveFullSearchInWorker], and the
    events emitted so far.  [schedule] is a JavaScript [Map]; its insertion
    order is observable through [Array.from(schedule.entries())], so it is an
    association list.  Of the two [Set]s only [has], [add] and [delete] are
    used, so they are finite sets.  [facultyTimeSlotMap] holds at most one
    [Set] object per key: the object bound to [assignedTimes] in a call is
    the one stored under [faculty] as soon as the first candidate is tried,
    so a write through [assignedTimes] is a write at that key. *)
Record SearchState := {
  schedule : list (FacultyMember * Assignment);
  assignedLectureSlots : gset LectureId;
  facultyTimeSlotMap : gmap FacultyMember (gset TimeSlot);
  progressState : ProgressState;
  posted : list Event }.

(** ** JavaScript containers *)

(** [Map.prototype.set]: an existing key keeps its position, a new key is
    appended. *)
Fixpoint Map_set {V} (k : FacultyMember) (v : V) (m : list (FacultyMember * V))
  : list (FacultyMember * V) :=
  match m with
  | [] => [(k, v)]
  | (k', v') :: m' =>
      if decide (k' = k) then (k, v) :: m' else (k', v') :: Map_set k v m'
  end.

(** [Map.prototype.delete]. *)
Definition Map_delete {V} (k : FacultyMember) (m : list (FacultyMember * V))
  : list (FacultyMember * V) :=
  filter (λ p, p.1 ≠ k) m.

(** [new Map(pairs)]: a later pair overrides an earlier one with its key. *)
Definition Map_of_pairs {V} (pairs : list (FacultyMember * V))
  : gmap FacultyMember V :=
  foldl (λ m p, <[p.1 := p.2]> m) ∅ pairs.

(** [Array.prototype.sort] with a comparator: a stable sort, here by
    insertion.  The new element goes behind every element that the comparator
    does not place after it. *)
Fixpoint sortInsert {A} (cmp : A → A → Z) (x : A) (l : list A) : list A :=
  match l with
  | [] => [x]
  | y :: l' =>
      if decide (cmp y x ≤ 0)%Z then y :: sortInsert cmp x l' else x :: y :: l'
  end.

Definition Array_sort {A} (cmp : A → A → Z) (l : list A) : list A :=
  foldl (λ acc x, sortInsert cmp x acc) [] l.

(** The comparator [(a, b) => b.isHappy - a.isHappy]. *)
Definition happyFirst (a b : Assignment) : Z :=
  (Z.b2z (isHappy b) - Z.b2z (isHappy a))%Z.

(** ** [shuffleArray]

    [random n] stands for the [n]-th call of [Math.random]; the index
    [Math.floor(Math.random() * (i + 1))] is the draw reduced to [0 .. i]. *)
Definition swap {A} (i j : nat) (array : list A) : list A :=
  match array !! i, array !! j with
  | Some x, Some y => <[j := x]> (<[i := y]> array)
  | _, _ => array
  end.

Fixpoint shuffleLoop {A} (random : nat → nat) (calls : nat) (i : nat)
  (array : list A) : list A :=
  match i with
  | 0 => array
  | S i' =>
      let j := random calls mod (i + 1) in
      shuffleLoop random (S calls) i' (swap i j array)
  end.

Definition shuffleArray {A} (random : nat → nat) (array : list A) : list A :=
  shuffleLoop random 0 (length array - 1) array.

(** ** State updates *)

Definition setFacultyIndex (i : nat) (st : SearchState) : SearchState :=
  {| schedule := schedule st;
     assignedLectureSlots := assignedLectureSlots st;
     facultyTimeSlotMap := facultyTimeSlotMap st;
     progressState :=
       {| facultyIndex := i;
          combinations := combinations (progressState st);
          bestScore := bestScore (progressState st) |};
     posted := posted st |}.

Definition setBestScore (s : Z) (st : SearchState) : SearchState :=
  {| schedule := schedule st;
     assignedLectureSlots := assignedLectureSlots st;
     facultyTimeSlotMap := facultyTimeSlotMap st;
     progressState :=
       {| facultyIndex := facultyIndex (progressState st);
          combinations := combinations (progressState st);
          bestScore := s |};
     posted := posted st |}.

(** [progressState.combinations++]. *)
Definition countCombination (st : SearchState) : SearchState :=
  {| schedule := schedule st;
     assignedLectureSlots := assignedLectureSlots st;
     facultyTimeSlotMap := facultyTimeSlotMap st;
     progressState :=
       {| facultyIndex := facultyIndex (progressState st);
          combinations := S (combinations (progressState st));
          bestScore := bestScore (progressState st) |};
     posted := posted st |}.

Definition emit (e : Event) (st : SearchState) : SearchState :=
  {| schedule := schedule st;
     assignedLectureSlots := assignedLectureSlots st;
     facultyTimeSlotMap := facultyTimeSlotMap st;
     progressState := progressState st;
     posted := posted st ++ [e] |}.

(** The set bound to [assignedTimes]:
    [facultyTimeSlotMap.get(faculty) || new Set()]. *)
Definition assignedTimes (faculty : FacultyMember) (st : SearchState)
  : gset TimeSlot :=
  default ∅ (facultyTimeSlotMap st !! faculty).

(** Lines 90 to 93: the tentative addition. *)
Definition assign (faculty : FacultyMember) (c : Assignment) (st : SearchState)
  : SearchState :=
  {| schedule := Map_set faculty c (schedule st);
     assignedLectureSlots := assignedLectureSlots st ∪ {[id (lecture c)]};
     facultyTimeSlotMap :=
       <[faculty := assignedTimes faculty st ∪ {[timeSlot (lecture c)]}]>
         (facultyTimeSlotMap st);
     progressState := progressState st;
     posted := posted st |}.

(** Lines 98 to 100: the backtrack. *)
Definition backtrack (faculty : FacultyMember) (c : Assignment)
  (st : SearchState) : SearchState :=
  {| schedule := Map_delete faculty (schedule st);
     assignedLectureSlots := assignedLectureSlots st ∖ {[id (lecture c)]};
     facultyTimeSlotMap :=
       <[faculty := assignedTimes faculty st ∖ {[timeSlot (lecture c)]}]>
         (facultyTimeSlotMap st);
     progressState := progressState st;
     posted := posted st |}.

(** ** The search *)

Section Search.

(** The variables that the closure [solveForFaculty] captures. *)
Variable allFaculty : list FacultyMember.
Variable allLectureSlots : list LectureSlot.
Variable facultyPreferredSlots : gmap FacultyMember (gset TimeSlot).

(** [facultyPreferredSlots.get(faculty) || new Set()]. *)
Definition preferredSlots (faculty : FacultyMember) : gset TimeSlot :=
  default ∅ (facultyPreferredSlots !! faculty).

(** Lines 75 to 84: the candidates of [faculty], happy ones first. *)
Definition possible (faculty : FacultyMember) (st : SearchState)
  : list Assignment :=
  Array_sort happyFirst
    ((λ l, {| lecture := l;
              isHappy := bool_decide (timeSlot l ∈ preferredSlots faculty) |})
       <$> (filter (λ l, (id l ∉ assignedLectureSlots st)
                         ∧ (timeSlot l ∉ assignedTimes faculty st))
              allLectureSlots)).

(** The body of the loop of lines 86 to 101; [recurse] is
    [solveForFaculty(facultyIndex + 1, _)]. *)
Definition tryCandidate (recurse : Z → SearchState → SearchState)
  (faculty : FacultyMember) (currentUnhappy : Z) (st : SearchState)
  (c : Assignment) : SearchState :=
  let st := countCombination st in
  let newUnhappy := (currentUnhappy + (if isHappy c then 0 else 1))%Z in
  let st := assign faculty c st in
  let st := recurse newUnhappy st in
  backtrack faculty c st.

(** [solveForFaculty], by recursion on the faculty members from
    [facultyIndex] on: [rest] is [allFaculty.slice(facultyIndex)], so it is
    empty exactly when [facultyIndex === allFaculty.length], and its head is
    [allFaculty[facultyIndex]]. *)
Fixpoint solveFrom (rest : list FacultyMember) (facultyIndex : nat)
  (currentUnhappy : Z) (st : SearchState) {struct rest} : SearchState :=
  if decide (bestScore (progressState st) ≤ currentUnhappy)%Z then st
  else
    let st := setFacultyIndex facultyIndex st in
    match rest with
    | [] =>
        let st := setBestScore currentUnhappy st in
        emit (postMessage (solutionUpdate (schedule st) currentUnhappy)) st
    | faculty :: rest' =>
        let st :=
          if decide (combinations (progressState st) mod 1000 = 0) then
            emit yieldWorker
              (emit (postMessage
                       (progressUpdate facultyIndex faculty
                          (combinations (progressState st)))) st)
          else st in
        foldl (tryCandidate (solveFrom rest' (S facultyIndex))
                 faculty currentUnhappy)
          st (possible faculty st)
    end.

Definition solveForFaculty (facultyIndex : nat) (currentUnhappy : Z)
  (st : SearchState) : SearchState :=
  solveFrom (drop facultyIndex allFaculty) facultyIndex currentUnhappy st.

End Search.

(** [{ finalCombinations, finalScore }]. *)
Record SearchResult := { finalCombinations : nat; finalScore : Z }.

(** Lines 24 to 32. *)
Definition initialState (initialBestScore : Z) : SearchState :=
  {| schedule := [];
     assignedLectureSlots := ∅;
     facultyTimeSlotMap := ∅;
     progressState :=
       {| facultyIndex := 0; combinations := 0; bestScore := initialBestScore |};
     posted := [] |}.

(** Lines 34 to 38: the lectures grouped by time slot. *)
Definition groupByTime (allLectureSlots : list LectureSlot)
  : gmap TimeSlot (list LectureSlot) :=
  foldl (λ m l, <[timeSlot l := default [] (m !! timeSlot l) ++ [l]]> m)
    ∅ allLectureSlots.

(** The state in which the call [solveForFaculty(0, 0)] of line 105 ends. *)
Definition searchEnd (allFaculty : list FacultyMember)
  (allLectureSlots : list LectureSlot)
  (facultyPreferredSlots : gmap FacultyMember (gset TimeSlot))
  (initialBestScore : Z) : SearchState :=
  solveForFaculty allFaculty allLectureSlots facultyPreferredSlots 0 0%Z
    (initialState initialBestScore).

(** [solveFullSearchInWorker]: the result object, and the events emitted
    while it ran.  [random] is the generator behind [Math.random]. *)
Definition solveFullSearchInWorker (random : nat → nat)
  (allFaculty : list FacultyMember) (allLectureSlots : list LectureSlot)
  (teacherAvailabilityMap : gmap FacultyMember (list TimeSlot))
  (facultyPreferredSlots : gmap FacultyMember (gset TimeSlot))
  (initialBestScore : Z) : SearchResult * list Event :=
  let lectureSlotsByTime := groupByTime allLectureSlots in
  let shuffledFaculty := shuffleArray random allFaculty in
  let st :=
    searchEnd allFaculty allLectureSlots facultyPreferredSlots
      initialBestScore in
  ({| finalCombinations := combinations (progressState st);
      finalScore := bestScore (progressState st) |},
   posted st).

(** ** The message listener *)

(** [event.data] of a start request, in its wire shape: the two maps travel
    as arrays of pairs.  The fields have the names under which line 118
    destructures them. *)
Record StartRequest := {
  allFaculty : list FacultyMember;
  allLectureSlots : list LectureSlot;
  teacherAvailabilityMap : list (FacultyMember * list TimeSlot);
  facultyPreferredSlots : list (FacultyMember * list TimeSlot);
  initialBestScore : Z }.

(** How the promise of the [async] listener settles. *)
Inductive Settled :=
| fulfilled
| rejected (reason : string).

(** [self.onmessage].  A message without payload has [event.data] undefined;
    destructuring it on line 118 throws before the [try] block is entered, so
    nothing is posted.  With a payload of the right shape nothing in the
    [try] block throws, and the [catch] of line 136 is not entered. *)
Definition onmessage (random : nat → nat) (data : option StartRequest)
  : list Event * Settled :=
  match data with
  | None => ([], rejected "TypeError")
  | Some d =>
      let reconstructedTeacherAvailabilityMap :=
        Map_of_pairs (teacherAvailabilityMap d) in
      let reconstructedFacultyPreferredSlots :=
        Map_of_pairs ((λ p, (p.1, list_to_set p.2)) <$> facultyPreferredSlots d) in
      let (result, events) :=
        solveFullSearchInWorker random (allFaculty d) (allLectureSlots d)
          reconstructedTeacherAvailabilityMap
          reconstructedFacultyPreferredSlots
          (initialBestScore d) in
      (events ++ [postMessage (complete (finalCombinations result)
                                 (finalScore result))],
       fulfilled)
  end.

(** The scores of the [solutionUpdate] messages among the events. *)
Definition solutionScores (events : list Event) : list Z :=
  omap (λ e, match e with
             | postMessage (solutionUpdate _ s) => Some s
             | _ => None
             end) events.

(** The schedules of the [solutionUpdate] messages among the events. *)
Definition solutionSchedules (events : list Event)
  : list (list (FacultyMember * Assignment)) :=
  omap (λ e, match e with
             | postMessage (solutionUpdate s _) => Some s
             | _ => None
             end) events.

(** ** The scenario of the specification *)

Definition scenarioLectures : list LectureSlot :=
  [ {| id := 1; timeSlot := "9am" |};
    {| id := 2; timeSlot := "9am" |};
    {| id := 3; timeSlot := "10am" |} ].

Definition scenario (initialBestScore : Z) : StartRequest :=
  {| allFaculty := ["A"; "B"];
     allLectureSlots := scenarioLectures;
     teacherAvailabilityMap := [];
     facultyPreferredSlots := [("A", ["10am"]); ("B", [])];
     initialBestScore := initialBestScore |}.

Definition noRandom : nat → nat := λ _, 0.

(** ** The brute-force reference

    A complete assignment gives one lecture slot of the pool to every entry
    of the faculty list.  It is valid when no two entries share a lecture id
    and no two entries of the same faculty member share a time slot.  The
    reference enumerates every tuple of lecture slots, keeps the valid ones
    and counts their unpreferred entries; with the search it shares the
    lookup of a preference set and nothing else. *)

Section Reference.

Variable allFaculty : list FacultyMember.
Variable allLectureSlots : list LectureSlot.
Variable facultyPreferredSlots : gmap FacultyMember (gset TimeSlot).

(** Every list of [n] lecture slots of the pool. *)
Fixpoint choices (n : nat) : list (list LectureSlot) :=
  match n with
  | 0 => [[]]
  | S n' => allLectureSlots ≫= λ l, (λ ls, l :: ls) <$> choices n'
  end.

Definition validAssignment (a : list (FacultyMember * LectureSlot)) : Prop :=
  NoDup ((λ p, id p.2) <$> a) ∧ NoDup ((λ p, (p.1, timeSlot p.2)) <$> a).

Definition unpreferred (p : FacultyMember * LectureSlot) : Prop :=
  timeSlot p.2 ∉ preferredSlots facultyPreferredSlots p.1.

(** The score: the number of unpreferred entries. *)
Definition scoreOf (a : list (FacultyMember * LectureSlot)) : Z :=
  Z.of_nat (length (filter unpreferred a)).

Definition completeAssignments : list (list (FacultyMember * LectureSlot)) :=
  filter validAssignment (zip allFaculty <$> choices (length allFaculty)).

Definition bruteForceScores : list Z := scoreOf <$> completeAssignments.

(** The least score, when there is a valid complete assignment at all. *)
Definition bruteForceMinimum : option Z :=
  match bruteForceScores with
  | [] => None
  | s :: ss => Some (foldr Z.min s ss)
  end.

(** The valid ways to go on from a partial assignment that has consumed the
    lecture ids [used] and, for each faculty member [f], the time slots
    [times f]. *)
Fixpoint completion (a : list (FacultyMember * LectureSlot))
  (used : gset LectureId) (times : FacultyMember → gset TimeSlot) : Prop :=
  match a with
  | [] => True
  | p :: a' =>
      p.2 ∈ allLectureSlots ∧ (id p.2 ∉ used) ∧ (timeSlot p.2 ∉ times p.1)
      ∧ completion a' (used ∪ {[id p.2]})
          (λ g, if decide (g = p.1) then times g ∪ {[timeSlot p.2]}
                else times g)
  end.

(** What the specification asks of an emitted schedule. *)
Definition validSchedule (entries : list (FacultyMember * Assignment)) : Prop :=
  (∀ f, f ∈ allFaculty → length (filter (λ p, p.1 = f) entries) = 1)
  ∧ NoDup ((λ p, id (lecture p.2)) <$> entries)
  ∧ Forall (λ p, isHappy p.2
                 = bool_decide (timeSlot (lecture p.2)
                                ∈ preferredSlots facultyPreferredSlots p.1))
      entries.

End Reference.

(** The request has a fault of the kind the specification names: two
    lecture slots with one id, or preferences for somebody who is not in the
    faculty list. *)
Definition malformed (d : StartRequest) : Prop :=
  ¬ NoDup (id <$> allLectureSlots d)
  ∨ ∃ f, f ∈ (facultyPreferredSlots d).*1 ∧ f ∉ allFaculty d.

(** The preferences of a request as the listener rebuilds them. *)
Definition requestPreferences (d : StartRequest)
  : gmap FacultyMember (gset TimeSlot) :=
  Map_of_pairs ((λ p, (p.1, list_to_set p.2)) <$> facultyPreferredSlots d).

(** ** Inbound messages while a search runs

    The host can deliver an inbound message only while the search is
    suspended in [await yieldWorker()].  The listener then runs to its end
    before the search resumes, so what it posts appears right behind that
    suspension. *)
Fixpoint deliverAt (k : nat) (listener : list Event) (run : list Event)
  : list Event :=
  match run with
  | [] => listener
  | yieldWorker :: run' =>
      match k with
      | 0 => yieldWorker :: listener ++ run'
      | S k' => yieldWorker :: deliverAt k' listener run'
      end
  | e :: run' => e :: deliverAt k listener run'
  end.

(** Everything the worker posts for the start request [d] when a message
    without payload arrives at the [k]-th suspension of the search
    ([signal = Some k]), or when none arrives. *)
Definition workerEvents (random : nat → nat) (d : StartRequest)
  (signal : option nat) : list Event :=
  match signal with
  | None => (onmessage random (Some d)).1
  | Some k =>
      deliverAt k (onmessage random None).1 (onmessage random (Some d)).1
  end.

(** The value of [progressState.combinations] at the [k]-th suspension: the
    count in the [progressUpdate] posted just before it. *)
Fixpoint combinationsAtYield (k : nat) (seen : nat) (events : list Event)
  : option nat :=
  match events with
  | [] => None
  | postMessage (progressUpdate _ _ c) :: events' =>
      combinationsAtYield k c events'
  | yieldWorker :: events' =>
      match k with
      | 0 => Some seen
      | S k' => combinationsAtYield k' seen events'
      end
  | _ :: events' => combinationsAtYield k seen events'
  end.

(** The best score known at the [k]-th suspension. *)
Fixpoint bestAtYield (k : nat) (best : Z) (events : list Event) : option Z :=
  match events with
  | [] => None
  | postMessage (solutionUpdate _ s) :: events' => bestAtYield k s events'
  | yieldWorker :: events' =>
      match k with
      | 0 => Some best
      | S k' => bestAtYield k' best events'
      end
  | _ :: events' => bestAtYield k best events'
  end.

(** Each score is strictly below the one before it, and the first is
    strictly below [b]. *)
Fixpoint descends (b : Z) (scores : list Z) : Prop :=
  match scores with
  | [] => True
  | s :: scores' => (s < b)%Z ∧ descends s scores'
  end.

(** The last score, or [b] when there is none. *)
Definition lastScore (b : Z) (scores : list Z) : Z :=
  foldl (λ _ s, s) b scores.

(** Five faculty members, six lecture slots, nobody has a preference. *)
Definition wideRequest : StartRequest :=
  {| allFaculty := ["A"; "B"; "C"; "D"; "E"];
     allLectureSlots :=
       (λ n, {| id := n; timeSlot := "9am" |}) <$> [1; 2; 3; 4; 5; 6];
     teacherAvailabilityMap := [];
     facultyPreferredSlots := [];
     initialBestScore := 6 |}.

(** A request in which two lecture slots carry the id 1. *)
Definition duplicateIdRequest : StartRequest :=
  {| allFaculty := ["A"];
     allLectureSlots :=
       [ {| id := 1; timeSlot := "9am" |}; {| id := 1; timeSlot := "10am" |} ];
     teacherAvailabilityMap := [];
     facultyPreferredSlots := [("A", ["10am"])];
     initialBestScore := 2 |}.

(** The state in which the call [solveForFaculty(1, 1)] is entered when the
    faculty list is ["A"; "A"] and the first candidate of the root call is
    the lecture 1 at "9am". *)
Definition twiceEntry : SearchState :=
  assign "A" {| lecture := {| id := 1; timeSlot := "9am" |}; isHappy := false |}
    (countCombination
       (emit yieldWorker
          (emit (postMessage (progressUpdate 0 "A" 0))
             (setFacultyIndex 0 (initialState 3))))).

Definition twiceLectures : list LectureSlot :=
  [ {| id := 1; timeSlot := "9am" |}; {| id := 2; timeSlot := "10am" |} ].

(** ** Invariants of the search *)

(** The two states have consumed the same lecture ids and, for every faculty
    member, the same time slots.  The time slots are compared by membership:
    a call leaves an empty [Set] behind in [facultyTimeSlotMap] where there
    was no entry before. *)
Definition sameConsumed (st st' : SearchState) : Prop :=
  assignedLectureSlots st' = assignedLectureSlots st
  ∧ ∀ f, assignedTimes f st' = assignedTimes f st.

(** A call on the faculty members [rest] only removes entries from
    [schedule], and only entries of those faculty members. *)
Definition scheduleKept (rest : list FacultyMember) (st st' : SearchState)
  : Prop :=
  (NoDup (schedule st).*1 → NoDup (schedule st').*1)
  ∧ (∀ p, p ∈ schedule st' → p ∈ schedule st)
  ∧ (∀ p, p.1 ∉ rest → p ∈ schedule st → p ∈ schedule st').

(** The penalty that line 88 adds for a candidate. *)
Definition penalty (c : Assignment) : Z := if isHappy c then 0%Z else 1%Z.

(** Between the two states the search only appended events; every new
    [solutionUpdate] is strictly better than the best score before it, and
    the best score of the second state is that of the last one. *)
Definition advances (st st' : SearchState) : Prop :=
  ∃ new,
    posted st' = posted st ++ new
    ∧ descends (bestScore (progressState st)) (solutionScores new)
    ∧ bestScore (progressState st')
      = lastScore (bestScore (progressState st)) (solutionScores new).

(** The best score after a call with running score [cur] on the faculty
    members [rest] is the least of the best score before it and of the
    scores [cur + scoreOf a] of the valid completions [a]. *)
Definition bounded (allLectureSlots : list LectureSlot)
  (facultyPreferredSlots : gmap FacultyMember (gset TimeSlot))
  (rest : list FacultyMember) (cur : Z) (st st' : SearchState) : Prop :=
  let valid a :=
    a.*1 = rest
    ∧ completion allLectureSlots a (assignedLectureSlots st)
        (λ g, assignedTimes g st) in
  (bestScore (progressState st') ≤ bestScore (progressState st))%Z
  ∧ (∀ a, valid a →
       (bestScore (progressState st')
        ≤ cur + scoreOf facultyPreferredSlots a)%Z)
  ∧ (bestScore (progressState st') = bestScore (progressState st)
     ∨ ∃ a, valid a
            ∧ bestScore (progressState st')
              = (cur + scoreOf facultyPreferredSlots a)%Z).

(** The state on entry of a call for the faculty members [rest], when the
    calls above it have made the tentative additions [path].  An entry of a
    faculty member who comes again in [rest] may be missing from [schedule]:
    a call further down has overwritten and then deleted it. *)
Definition onPath (allFaculty : list FacultyMember)
  (facultyPreferredSlots : gmap FacultyMember (gset TimeSlot))
  (rest : list FacultyMember) (path : list (FacultyMember * Assignment))
  (st : SearchState) : Prop :=
  NoDup (schedule st).*1
  ∧ (∀ p, p ∈ schedule st → p ∈ path)
  ∧ (∀ f, f ∈ path.*1 → f ∉ rest → f ∈ (schedule st).*1)
  ∧ NoDup ((λ p, id (lecture p.2)) <$> path)
  ∧ (∀ p, p ∈ path → id (lecture p.2) ∈ assignedLectureSlots st)
  ∧ Forall (λ p, isHappy p.2
                 = bool_decide (timeSlot (lecture p.2)
                                ∈ preferredSlots facultyPreferredSlots p.1))
      path
  ∧ (∀ f, f ∈ allFaculty → f ∈ path.*1 ∨ f ∈ rest).

(** Every schedule posted so far is valid. *)
Definition solutionsValid (allFaculty : list FacultyMember)
  (facultyPreferredSlots : gmap FacultyMember (gset TimeSlot))
  (st : SearchState) : Prop :=
  Forall (validSchedule allFaculty facultyPreferredSlots)
    (solutionSchedules (posted st)).

(** The events that a search emits: no [complete] and no [error]. *)
Definition searchEvent (e : Event) : Prop :=
  match e with
  | postMessage (complete _ _) | postMessage (error _) => False
  | _ => True
  end.

(** A [progressUpdate] names the faculty member at its index of the list. *)
Definition progressNamed (allFaculty : list FacultyMember) (e : Event) : Prop :=
  match e with
  | postMessage (progressUpdate i f _) => allFaculty !! i = Some f
  | _ => True
  end.

(** ** Further notions about a run *)

(** The number of entries of a schedule whose [isHappy] is false. *)
Definition unhappyCount (entries : list (FacultyMember * Assignment)) : Z :=
  Z.of_nat (length (filter (λ p, isHappy p.2 = false) entries)).

(** A [solutionUpdate] has the faculty list as its keys, in order, and its
    score counts the unhappy entries of its schedule. *)
Definition exactSolution (allFaculty : list FacultyMember) (e : Event) : Prop :=
  match e with
  | postMessage (solutionUpdate s score) =>
      s.*1 = allFaculty ∧ score = unhappyCount s
  | _ => True
  end.

(** The score of a [solutionUpdate] lies between [lo] and [hi]. *)
Definition scoreWithin (lo hi : Z) (e : Event) : Prop :=
  match e with
  | postMessage (solutionUpdate _ score) => (lo ≤ score ≤ hi)%Z
  | _ => True
  end.

(** Suspensions and progress reports come in pairs: a [progressUpdate]
    carries a count that is a multiple of 1000 and is followed at once by
    the suspension, and there is no other suspension. *)
Inductive Paced : list Event → Prop :=
| Paced_nil : Paced []
| Paced_message m events :
    (∀ i f c, m ≠ progressUpdate i f c) →
    Paced events → Paced (postMessage m :: events)
| Paced_progress i f c events :
    c mod 1000 = 0 →
    Paced events →
    Paced (postMessage (progressUpdate i f c) :: yieldWorker :: events).

(** The number of nodes of a tree of depth [n] in which every node has [m]
    children: m + m² + ... + mⁿ. *)
Fixpoint treeSize (m n : nat) : nat :=
  match n with
  | 0 => 0
  | S n' => m * S (treeSize m n')
  end.

(** The last [solutionUpdate] among the events. *)
Definition lastSolution (events : list Event)
  : option (list (FacultyMember * Assignment) * Z) :=
  last (omap (λ e, match e with
                   | postMessage (solutionUpdate s score) => Some (s, score)
                   | _ => None
                   end) events).

(** Two faculty members and a single lecture slot. *)
Definition shortRequest : StartRequest :=
  {| allFaculty := ["A"; "B"];
     allLectureSlots := [ {| id := 1; timeSlot := "9am" |} ];
     teacherAvailabilityMap := [];
     facultyPreferredSlots := [("A", ["9am"])];
     initialBestScore := 3 |}.

(** Nobody to schedule. *)
Definition emptyRequest : StartRequest :=
  {| allFaculty := [];
     allLectureSlots := scenarioLectures;
     teacherAvailabilityMap := [];
     facultyPreferredSlots := [];
     initialBestScore := 1 |}.

(** * Properties *)

(** ** Containers *)

Lemma sortInsert_perm {A} (cmp : A → A → Z) (x : A) (l : list A) :
  sortInsert cmp x l ≡ₚ x :: l.
Proof.
  induction l as [|y l IH]; simpl; [done|].
  case_decide; [|done].
  rewrite IH. apply Permutation_swap.
Qed.

Lemma Array_sort_perm {A} (cmp : A → A → Z) (l : list A) :
  Array_sort cmp l ≡ₚ l.
Proof.
  unfold Array_sort.
  enough (∀ acc, foldl (λ acc x, sortInsert cmp x acc) acc l ≡ₚ acc ++ l)
    as H by apply (H []).
  induction l as [|x l IH]; intros acc; simpl.
  - by rewrite app_nil_r.
  - rewrite IH, sortInsert_perm. apply Permutation_middle.
Qed.

Lemma elem_of_Map_set_weak {V} k (v : V) m p :
  p ∈ Map_set k v m → p = (k, v) ∨ p ∈ m.
Proof.
  induction m as [|[k' v'] m IH]; simpl.
  - rewrite list_elem_of_singleton. auto.
  - case_decide; rewrite !elem_of_cons; naive_solver.
Qed.

Lemma elem_of_Map_set_other {V} k (v : V) m p :
  p ∈ m → p.1 ≠ k → p ∈ Map_set k v m.
Proof.
  induction m as [|[k' v'] m IH]; simpl; [by inversion 1|].
  rewrite elem_of_cons. intros [->|Hin] Hne.
  - simpl in Hne. rewrite decide_False by done. by left.
  - case_decide; right; auto.
Qed.

Lemma Map_set_keys {V} k (v : V) m f :
  f ∈ (Map_set k v m).*1 ↔ f = k ∨ f ∈ m.*1.
Proof.
  induction m as [|[k' v'] m IH]; simpl.
  - rewrite list_elem_of_singleton, elem_of_nil. naive_solver.
  - case_decide; subst; simpl; rewrite !elem_of_cons; [|rewrite IH];
      naive_solver.
Qed.

Lemma Map_set_NoDup {V} k (v : V) m :
  NoDup m.*1 → NoDup (Map_set k v m).*1.
Proof.
  induction m as [|[k' v'] m IH]; simpl.
  - intros _. apply NoDup_singleton.
  - rewrite NoDup_cons. intros [Hn Hnd].
    case_decide; subst; simpl; rewrite NoDup_cons.
    + done.
    + split; [|auto]. rewrite Map_set_keys. naive_solver.
Qed.

Lemma elem_of_Map_delete {V} k (m : list (FacultyMember * V)) p :
  p ∈ Map_delete k m ↔ p ∈ m ∧ p.1 ≠ k.
Proof. unfold Map_delete. rewrite list_elem_of_filter. tauto. Qed.

Lemma Map_delete_NoDup {V} k (m : list (FacultyMember * V)) :
  NoDup m.*1 → NoDup (Map_delete k m).*1.
Proof.
  unfold Map_delete. induction m as [|[k' v'] m IH]; simpl; [done|].
  rewrite NoDup_cons. intros [Hn Hnd].
  rewrite filter_cons. case_decide; simpl; [|auto].
  rewrite NoDup_cons. split; [|auto].
  rewrite list_elem_of_fmap. intros ([k2 v2] & -> & Hin).
  apply list_elem_of_filter in Hin as [_ Hin].
  apply Hn. by apply (list_elem_of_fmap_2 fst) in Hin.
Qed.

(** On a key that is not there, [set] appends and [delete] takes the
    appended entry away again. *)
Lemma Map_set_fresh {V} k (v : V) m :
  k ∉ m.*1 → Map_set k v m = m ++ [(k, v)].
Proof.
  induction m as [|[k' v'] m IH]; simpl; [done|].
  rewrite not_elem_of_cons. intros [Hne Hn].
  rewrite decide_False by done. by rewrite IH.
Qed.

Lemma Map_delete_absent {V} k (m : list (FacultyMember * V)) :
  k ∉ m.*1 → Map_delete k m = m.
Proof.
  unfold Map_delete. induction m as [|[k' v'] m IH]; simpl; [done|].
  rewrite not_elem_of_cons. intros [Hne Hn].
  rewrite filter_cons_True by (simpl; congruence). by rewrite IH.
Qed.

Lemma Map_delete_app {V} k (m1 m2 : list (FacultyMember * V)) :
  Map_delete k (m1 ++ m2) = Map_delete k m1 ++ Map_delete k m2.
Proof. apply filter_app. Qed.

(** ** The state updates *)

Lemma assignedTimes_assign g f c st :
  assignedTimes g (assign f c st)
  = if decide (g = f) then assignedTimes f st ∪ {[timeSlot (lecture c)]}
    else assignedTimes g st.
Proof.
  unfold assignedTimes at 1. simpl. case_decide.
  - subst. by rewrite lookup_insert_eq.
  - by rewrite lookup_insert_ne.
Qed.

Lemma assignedTimes_backtrack g f c st :
  assignedTimes g (backtrack f c st)
  = if decide (g = f) then assignedTimes f st ∖ {[timeSlot (lecture c)]}
    else assignedTimes g st.
Proof.
  unfold assignedTimes at 1. simpl. case_decide.
  - subst. by rewrite lookup_insert_eq.
  - by rewrite lookup_insert_ne.
Qed.

(** In the goals about a call that is not pruned, [name_loop_state st1]
    names the state in which the loop over the candidates starts. *)
Ltac name_loop_state st1 :=
  match goal with
  | |- context [foldl _ ?s (possible _ _ _ ?s)] => set (st1 := s)
  end.

(** ** The candidates *)

Section SearchProperties.

Context (allFaculty : list FacultyMember).
Context (allLectureSlots : list LectureSlot).
Context (facultyPreferredSlots : gmap FacultyMember (gset TimeSlot)).

Local Abbreviation possible' :=
  (possible allLectureSlots facultyPreferredSlots).
Local Abbreviation solveFrom' :=
  (solveFrom allLectureSlots facultyPreferredSlots).
Local Abbreviation solveForFaculty' :=
  (solveForFaculty allFaculty allLectureSlots facultyPreferredSlots).
Local Abbreviation preferredSlots' := (preferredSlots facultyPreferredSlots).

Lemma elem_of_possible f st c :
  c ∈ possible' f st ↔
  ∃ l, l ∈ allLectureSlots
       ∧ (id l ∉ assignedLectureSlots st)
       ∧ (timeSlot l ∉ assignedTimes f st)
       ∧ c = {| lecture := l;
                isHappy := bool_decide (timeSlot l ∈ preferredSlots' f) |}.
Proof.
  unfold possible. rewrite Array_sort_perm, list_elem_of_fmap.
  setoid_rewrite list_elem_of_filter. naive_solver.
Qed.

(** ** Unfolding [solveForFaculty]

    The recursion on the rest of the faculty list is the recursion of the
    source on [facultyIndex]. *)
Lemma solveForFaculty_unfold facultyIndex currentUnhappy st :
  facultyIndex ≤ length allFaculty →
  solveForFaculty' facultyIndex currentUnhappy st =
  if decide (bestScore (progressState st) ≤ currentUnhappy)%Z then st
  else
    let st := setFacultyIndex facultyIndex st in
    if decide (facultyIndex = length allFaculty) then
      let st := setBestScore currentUnhappy st in
      emit (postMessage (solutionUpdate (schedule st) currentUnhappy)) st
    else
      match allFaculty !! facultyIndex with
      | None => st
      | Some faculty =>
          let st :=
            if decide (combinations (progressState st) mod 1000 = 0) then
              emit yieldWorker
                (emit (postMessage
                         (progressUpdate facultyIndex faculty
                            (combinations (progressState st)))) st)
            else st in
          foldl (tryCandidate (solveForFaculty' (S facultyIndex))
                   faculty currentUnhappy)
            st (possible' faculty st)
      end.
Proof.
  intros Hle. unfold solveForFaculty.
  destruct (drop facultyIndex allFaculty) as [|f rest] eqn:Hdrop; simpl.
  - apply drop_nil_inv in Hdrop.
    case_decide; [done|]. rewrite decide_True by lia. done.
  - assert (allFaculty !! facultyIndex = Some f) as Hf.
    { rewrite <- (Nat.add_0_r facultyIndex), <- lookup_drop. by rewrite Hdrop. }
    rewrite (drop_S _ _ _ Hf) in Hdrop. injection Hdrop as <-.
    case_decide; [done|].
    apply lookup_lt_Some in Hf as Hlt.
    rewrite (decide_False (P := facultyIndex = length allFaculty)) by lia.
    rewrite Hf. done.
Qed.

(** ** What a call leaves of the consumed sets and of the schedule *)

Lemma sameConsumed_refl st : sameConsumed st st.
Proof. by split. Qed.

Lemma sameConsumed_trans st1 st2 st3 :
  sameConsumed st1 st2 → sameConsumed st2 st3 → sameConsumed st1 st3.
Proof.
  intros [H1 H2] [H3 H4]. split; [congruence|].
  intros f. by rewrite H4, H2.
Qed.

Lemma tryCandidate_consumed recurse f cur st c :
  (∀ cur' st', sameConsumed st' (recurse cur' st')) →
  id (lecture c) ∉ assignedLectureSlots st →
  timeSlot (lecture c) ∉ assignedTimes f st →
  sameConsumed st (tryCandidate recurse f cur st c).
Proof.
  intros Hrec Hid Hts. unfold tryCandidate.
  destruct (Hrec (cur + (if isHappy c then 0 else 1))%Z
              (assign f c (countCombination st))) as [Hids Htimes].
  split.
  - simpl. rewrite Hids. simpl. set_solver.
  - intros g. rewrite assignedTimes_backtrack, !Htimes.
    rewrite !assignedTimes_assign.
    change (assignedTimes ?x (countCombination st)) with (assignedTimes x st).
    destruct (decide (g = f)) as [->|Hne]; [|done].
    rewrite decide_True by done. set_solver.
Qed.

Lemma foldl_tryCandidate_consumed recurse f cur cs st0 st :
  (∀ cur' st', sameConsumed st' (recurse cur' st')) →
  Forall (λ c, (id (lecture c) ∉ assignedLectureSlots st0)
               ∧ (timeSlot (lecture c) ∉ assignedTimes f st0)) cs →
  sameConsumed st0 st →
  sameConsumed st0 (foldl (tryCandidate recurse f cur) st cs).
Proof.
  intros Hrec Hcs. revert st.
  induction Hcs as [|c cs [Hid Hts] _ IH]; intros st Hst; simpl; [done|].
  apply IH. eapply sameConsumed_trans; [exact Hst|].
  destruct Hst as [Hids Htimes].
  apply tryCandidate_consumed; [done|by rewrite Hids|by rewrite Htimes].
Qed.

Lemma possible_fresh f st :
  Forall (λ c, (id (lecture c) ∉ assignedLectureSlots st)
               ∧ (timeSlot (lecture c) ∉ assignedTimes f st)) (possible' f st).
Proof.
  apply Forall_forall. intros c (l & _ & Hid & Hts & ->)%elem_of_possible.
  done.
Qed.

(** A call gives back the lecture ids and the time slots it consumed. *)
Lemma solveFrom_consumed rest i cur st :
  sameConsumed st (solveFrom' rest i cur st).
Proof.
  revert i cur st. induction rest as [|f rest IH]; intros i cur st; simpl.
  - case_decide; by split.
  - case_decide; [by split|].
    name_loop_state st1.
    assert (sameConsumed st st1) as Hst1.
    { subst st1. case_decide; by split. }
    eapply sameConsumed_trans; [exact Hst1|].
    apply foldl_tryCandidate_consumed;
      [apply IH|apply possible_fresh|apply sameConsumed_refl].
Qed.

Lemma scheduleKept_refl rest st : scheduleKept rest st st.
Proof. by repeat split. Qed.

Lemma scheduleKept_trans rest st1 st2 st3 :
  scheduleKept rest st1 st2 → scheduleKept rest st2 st3 →
  scheduleKept rest st1 st3.
Proof.
  intros (H1 & H2 & H3) (H4 & H5 & H6). repeat split; auto.
Qed.

Lemma tryCandidate_scheduleKept recurse f rest cur st c :
  (∀ cur' st', scheduleKept rest st' (recurse cur' st')) →
  scheduleKept (f :: rest) st (tryCandidate recurse f cur st c).
Proof.
  intros Hrec. unfold tryCandidate.
  destruct (Hrec (cur + (if isHappy c then 0 else 1))%Z
              (assign f c (countCombination st))) as (Hnd & Hsub & Hkeep).
  repeat split; simpl.
  - intros H. apply Map_delete_NoDup, Hnd. simpl. by apply Map_set_NoDup.
  - intros p [Hin Hne]%elem_of_Map_delete.
    apply Hsub in Hin. simpl in Hin.
    apply elem_of_Map_set_weak in Hin as [->|Hin]; [done|done].
  - intros p [Hne Hnot]%not_elem_of_cons Hin.
    apply elem_of_Map_delete. split; [|done].
    apply Hkeep; [done|]. simpl. by apply elem_of_Map_set_other.
Qed.

Lemma foldl_tryCandidate_scheduleKept recurse f rest cur cs st :
  (∀ cur' st', scheduleKept rest st' (recurse cur' st')) →
  scheduleKept (f :: rest) st (foldl (tryCandidate recurse f cur) st cs).
Proof.
  intros Hrec. revert st.
  induction cs as [|c cs IH]; intros st; simpl; [apply scheduleKept_refl|].
  eapply scheduleKept_trans; [|apply IH].
  by apply tryCandidate_scheduleKept.
Qed.

Lemma solveFrom_scheduleKept rest i cur st :
  scheduleKept rest st (solveFrom' rest i cur st).
Proof.
  revert i cur st. induction rest as [|f rest IH]; intros i cur st; simpl.
  - case_decide; by repeat split.
  - case_decide; [by repeat split|].
    name_loop_state st1.
    assert (scheduleKept (f :: rest) st st1) as Hst1.
    { subst st1. case_decide; by repeat split. }
    eapply scheduleKept_trans; [exact Hst1|].
    apply foldl_tryCandidate_scheduleKept, IH.
Qed.

(** ** The scores of the emitted solutions *)

Lemma solutionScores_app e1 e2 :
  solutionScores (e1 ++ e2) = solutionScores e1 ++ solutionScores e2.
Proof. apply omap_app. Qed.

Lemma lastScore_app b s1 s2 :
  lastScore b (s1 ++ s2) = lastScore (lastScore b s1) s2.
Proof. apply foldl_app. Qed.

Lemma descends_app b s1 s2 :
  descends b (s1 ++ s2) ↔ descends b s1 ∧ descends (lastScore b s1) s2.
Proof.
  revert b. induction s1 as [|s s1 IH]; intros b; simpl.
  - unfold lastScore. simpl. tauto.
  - rewrite IH. unfold lastScore. simpl. tauto.
Qed.

Lemma descends_lastScore b ss : descends b ss → (lastScore b ss ≤ b)%Z.
Proof.
  revert b. induction ss as [|s ss IH]; intros b; simpl.
  - unfold lastScore. simpl. lia.
  - intros [Hlt Hd]. apply IH in Hd. unfold lastScore in *. simpl. lia.
Qed.

Lemma descends_below b ss : descends b ss → Forall (λ s, (s < b)%Z) ss.
Proof.
  revert b. induction ss as [|s ss IH]; intros b; simpl; [done|].
  intros [Hlt Hd]. constructor; [done|].
  apply IH in Hd. eapply Forall_impl; [exact Hd|]. simpl. lia.
Qed.

Lemma descends_lastScore_eq b ss :
  descends b ss → lastScore b ss = b → ss = [].
Proof.
  destruct ss as [|s ss]; [done|]. simpl. intros [Hlt Hd] Heq.
  apply descends_lastScore in Hd. unfold lastScore in *. simpl in Heq. lia.
Qed.

Lemma advances_refl st : advances st st.
Proof.
  exists []. rewrite app_nil_r. by repeat split.
Qed.

Lemma advances_trans st1 st2 st3 :
  advances st1 st2 → advances st2 st3 → advances st1 st3.
Proof.
  intros (n1 & Hp1 & Hd1 & Hb1) (n2 & Hp2 & Hd2 & Hb2).
  exists (n1 ++ n2). rewrite Hp2, Hp1, app_assoc, solutionScores_app.
  split; [done|]. rewrite descends_app, lastScore_app, <- Hb1. by repeat split.
Qed.

Lemma advances_silent st st' new :
  posted st' = posted st ++ new →
  solutionScores new = [] →
  bestScore (progressState st') = bestScore (progressState st) →
  advances st st'.
Proof.
  intros Hp Hs Hb. exists new. rewrite Hs. by repeat split.
Qed.

Lemma tryCandidate_advances recurse f cur st c :
  (∀ cur' st', advances st' (recurse cur' st')) →
  advances st (tryCandidate recurse f cur st c).
Proof.
  intros Hrec. unfold tryCandidate.
  destruct (Hrec (cur + (if isHappy c then 0 else 1))%Z
              (assign f c (countCombination st))) as (new & Hp & Hd & Hb).
  exists new. by repeat split.
Qed.

Lemma foldl_tryCandidate_advances recurse f cur cs st :
  (∀ cur' st', advances st' (recurse cur' st')) →
  advances st (foldl (tryCandidate recurse f cur) st cs).
Proof.
  intros Hrec. revert st.
  induction cs as [|c cs IH]; intros st; simpl; [apply advances_refl|].
  eapply advances_trans; [|apply IH]. by apply tryCandidate_advances.
Qed.

Lemma solveFrom_advances rest i cur st :
  advances st (solveFrom' rest i cur st).
Proof.
  revert i cur st. induction rest as [|f rest IH]; intros i cur st; simpl.
  - case_decide as Hb; [apply advances_refl|].
    exists [postMessage (solutionUpdate (schedule st) cur)].
    simpl. unfold lastScore. simpl. repeat split. lia.
  - case_decide; [apply advances_refl|].
    name_loop_state st1.
    assert (advances st st1) as Hst1.
    { subst st1. case_decide.
      - eapply advances_silent; simpl; [by rewrite <- app_assoc|done..].
      - apply (advances_silent _ _ []); simpl; [by rewrite app_nil_r|done..]. }
    eapply advances_trans; [exact Hst1|].
    apply foldl_tryCandidate_advances, IH.
Qed.

(** ** Branch and bound finds the least score *)

Lemma scoreOf_nil : scoreOf facultyPreferredSlots [] = 0%Z.
Proof. done. Qed.

Lemma scoreOf_cons f l a :
  scoreOf facultyPreferredSlots ((f, l) :: a)
  = (penalty {| lecture := l;
                isHappy := bool_decide (timeSlot l ∈ preferredSlots' f) |}
     + scoreOf facultyPreferredSlots a)%Z.
Proof.
  unfold scoreOf, penalty. rewrite filter_cons. unfold unpreferred at 1. simpl.
  case_bool_decide; case_decide; simpl; try done; lia.
Qed.

Lemma scoreOf_nonneg a : (0 ≤ scoreOf facultyPreferredSlots a)%Z.
Proof. unfold scoreOf. lia. Qed.

Lemma completion_ext a used t1 t2 :
  (∀ g, t1 g = t2 g) →
  completion allLectureSlots a used t1 → completion allLectureSlots a used t2.
Proof.
  revert used t1 t2. induction a as [|p a IH]; intros used t1 t2 Heq; simpl;
    [done|].
  intros (Hin & Hid & Hts & Hc). rewrite <- Heq. repeat split; try done.
  eapply IH; [|exact Hc]. intros g. simpl. by rewrite Heq.
Qed.

Lemma bounded_pruned rest cur st :
  (bestScore (progressState st) ≤ cur)%Z →
  bounded allLectureSlots facultyPreferredSlots rest cur st st.
Proof.
  intros Hle. repeat split; [lia| |by left].
  intros a _. pose proof (scoreOf_nonneg a). lia.
Qed.

Lemma foldl_tryCandidate_bounded recurse f rest cur cs st0 st :
  (∀ cur' st',
     bounded allLectureSlots facultyPreferredSlots rest cur' st'
       (recurse cur' st')) →
  (∀ cur' st', sameConsumed st' (recurse cur' st')) →
  Forall (λ c, (id (lecture c) ∉ assignedLectureSlots st0)
               ∧ (timeSlot (lecture c) ∉ assignedTimes f st0)) cs →
  sameConsumed st0 st →
  let valid c a :=
    c ∈ cs ∧ a.*1 = rest
    ∧ completion allLectureSlots a
        (assignedLectureSlots st0 ∪ {[id (lecture c)]})
        (λ g, if decide (g = f)
              then assignedTimes g st0 ∪ {[timeSlot (lecture c)]}
              else assignedTimes g st0) in
  let st' := foldl (tryCandidate recurse f cur) st cs in
  (bestScore (progressState st') ≤ bestScore (progressState st))%Z
  ∧ (∀ c a, valid c a →
       (bestScore (progressState st')
        ≤ cur + penalty c + scoreOf facultyPreferredSlots a)%Z)
  ∧ (bestScore (progressState st') = bestScore (progressState st)
     ∨ ∃ c a, valid c a
              ∧ bestScore (progressState st')
                = (cur + penalty c + scoreOf facultyPreferredSlots a)%Z).
Proof.
  intros Hrec Hfr Hcs. revert st.
  induction Hcs as [|c cs [Hid Hts] Hcs IH]; intros st Hst; simpl.
  - split; [lia|]. split; [|by left].
    intros c a (Hin & _). by apply elem_of_nil in Hin.
  - set (st2 := tryCandidate recurse f cur st c).
    assert (sameConsumed st0 st2) as Hst2.
    { eapply sameConsumed_trans; [exact Hst|]. destruct Hst as [Hi Ht].
      apply tryCandidate_consumed; [done|by rewrite Hi|by rewrite Ht]. }
    destruct (IH st2 Hst2) as (Hle & Hlow & Hatt).
    destruct (Hrec (cur + penalty c)%Z (assign f c (countCombination st)))
      as (Hle1 & Hlow1 & Hatt1).
    assert (∀ a,
      completion allLectureSlots a
        (assignedLectureSlots (assign f c (countCombination st)))
        (λ g, assignedTimes g (assign f c (countCombination st)))
      ↔ completion allLectureSlots a
          (assignedLectureSlots st0 ∪ {[id (lecture c)]})
          (λ g, if decide (g = f)
                then assignedTimes g st0 ∪ {[timeSlot (lecture c)]}
                else assignedTimes g st0)) as Hview.
    { intros a. destruct Hst as [Hi Ht]. simpl. rewrite Hi.
      split; apply completion_ext; intros g;
        rewrite assignedTimes_assign;
        change (assignedTimes ?x (countCombination st))
          with (assignedTimes x st);
        rewrite !Ht; by case_decide; subst. }
    assert (bestScore (progressState st2)
            = bestScore (progressState
                (recurse (cur + penalty c)%Z
                   (assign f c (countCombination st))))) as Hb2 by done.
    change (bestScore (progressState (assign f c (countCombination st))))
      with (bestScore (progressState st)) in *.
    split; [lia|]. split.
    + intros c' a (Hin & Ha & Hc).
      apply elem_of_cons in Hin as [->|Hin]; [|by apply Hlow].
      specialize (Hlow1 a). rewrite Hview in Hlow1.
      specialize (Hlow1 (conj Ha Hc)). lia.
    + destruct Hatt as [Heq|(c' & a & (Hin & Ha & Hc) & Heq)].
      * destruct Hatt1 as [Heq1|(a & [Ha Hc] & Heq1)]; [left; congruence|].
        right. exists c, a. rewrite Hview in Hc.
        split; [by repeat split; [left|..]|]. lia.
      * right. exists c', a. split; [by repeat split; [right|..]|done].
Qed.

Lemma solveFrom_bounded rest i cur st :
  bounded allLectureSlots facultyPreferredSlots rest cur st
    (solveFrom' rest i cur st).
Proof.
  revert i cur st. induction rest as [|f rest IH]; intros i cur st; simpl.
  - case_decide; [by apply bounded_pruned|].
    repeat split; simpl; [lia| |].
    + intros a [Ha _]. apply fmap_nil_inv in Ha as ->. rewrite scoreOf_nil. lia.
    + right. exists []. rewrite scoreOf_nil. repeat split. lia.
  - case_decide as Hb; [by apply bounded_pruned|].
    name_loop_state st1.
    assert (sameConsumed st st1) as Hst1 by (subst st1; case_decide; by split).
    assert (bestScore (progressState st1) = bestScore (progressState st))
      as Hb1 by (subst st1; by case_decide).
    destruct (foldl_tryCandidate_bounded
                (solveFrom' rest (S i)) f rest cur (possible' f st1) st1 st1)
      as (Hle & Hlow & Hatt);
      [apply IH|apply solveFrom_consumed|apply possible_fresh
      |apply sameConsumed_refl|].
    destruct Hst1 as [Hi Ht].
    split; [lia|]. split.
    + intros a [Ha Hc]. destruct a as [|[f' l] a]; [done|].
      simpl in Ha. injection Ha as -> Ha.
      destruct Hc as (Hin & Hid & Hts & Hc). simpl in Hin, Hid, Hts, Hc.
      rewrite scoreOf_cons, Z.add_assoc. apply Hlow.
      split; [apply elem_of_possible; exists l; by rewrite Hi, Ht|].
      split; [done|]. simpl. rewrite Hi.
      eapply completion_ext; [|exact Hc]. intros g. simpl. by rewrite !Ht.
    + destruct Hatt as [Heq|(c & a & (Hin & Ha & Hc) & Heq)]; [left; lia|].
      right. apply elem_of_possible in Hin as (l & Hin & Hid & Hts & ->).
      exists ((f, l) :: a). rewrite scoreOf_cons. split; [|lia].
      split; [by rewrite fmap_cons, Ha|]. simpl. rewrite <- Hi, <- Ht.
      repeat split; try done. simpl in Hc.
      eapply completion_ext; [|exact Hc]. intros g. simpl. by rewrite !Ht.
Qed.

(** ** Every emitted schedule is valid *)

Lemma filter_key_absent {V} f (m : list (FacultyMember * V)) :
  f ∉ m.*1 → filter (λ p, p.1 = f) m = [].
Proof.
  induction m as [|[k v] m IH]; [done|].
  rewrite fmap_cons, not_elem_of_cons. simpl. intros [Hne Hn].
  rewrite filter_cons_False by (simpl; congruence). auto.
Qed.

Lemma filter_key_once {V} f (m : list (FacultyMember * V)) :
  NoDup m.*1 → f ∈ m.*1 → length (filter (λ p, p.1 = f) m) = 1.
Proof.
  induction m as [|[k v] m IH]; [by intros _ ?%elem_of_nil|].
  rewrite fmap_cons, NoDup_cons, elem_of_cons. simpl. intros [Hn Hnd] Hin.
  destruct (decide (k = f)) as [->|Hne].
  - rewrite filter_cons_True by done. by rewrite filter_key_absent.
  - rewrite filter_cons_False by done. apply IH; [done|]. naive_solver.
Qed.

Lemma NoDup_fmap_inj_on {A B} (g : A → B) (l : list A) x y :
  NoDup (g <$> l) → x ∈ l → y ∈ l → g x = g y → x = y.
Proof.
  induction l as [|z l IH]; [by intros _ ?%elem_of_nil|].
  rewrite fmap_cons, NoDup_cons, !elem_of_cons.
  intros [Hn Hnd] [->|Hx] [->|Hy] Heq; [done| | |by apply IH].
  - destruct Hn. rewrite Heq. by apply list_elem_of_fmap_2.
  - destruct Hn. rewrite <- Heq. by apply list_elem_of_fmap_2.
Qed.

Lemma onPath_validSchedule path st :
  onPath allFaculty facultyPreferredSlots [] path st →
  validSchedule allFaculty facultyPreferredSlots (schedule st).
Proof.
  intros (Hnd & Hsub & Hkeys & Hids & _ & Hhappy & Hcover).
  repeat split.
  - intros f Hf. apply filter_key_once; [done|].
    apply Hkeys; [|apply not_elem_of_nil].
    destruct (Hcover f Hf) as [?|?%elem_of_nil]; done.
  - apply NoDup_fmap_2_strong; [|by apply NoDup_fmap_1 in Hnd].
    intros x y Hx Hy.
    apply (NoDup_fmap_inj_on (λ p, id (lecture p.2)) path); auto.
  - apply Forall_forall. intros p Hp.
    by apply (proj1 (Forall_forall _ _) Hhappy), Hsub.
Qed.

Lemma onPath_kept rest path st st' :
  onPath allFaculty facultyPreferredSlots rest path st →
  scheduleKept rest st st' →
  assignedLectureSlots st' = assignedLectureSlots st →
  onPath allFaculty facultyPreferredSlots rest path st'.
Proof.
  intros (Hnd & Hsub & Hkeys & Hids & Hused & Hhappy & Hcover)
    (Knd & Ksub & Kkeep) Hi.
  repeat split; auto.
  - intros f Hf Hnot.
    apply Hkeys in Hf as ([g a] & -> & Hin)%list_elem_of_fmap; [|done].
    apply Kkeep in Hin; [|done]. by apply (list_elem_of_fmap_2 fst) in Hin.
  - intros p Hp. rewrite Hi. auto.
Qed.

Lemma onPath_assign f c rest path st :
  onPath allFaculty facultyPreferredSlots (f :: rest) path st →
  id (lecture c) ∉ assignedLectureSlots st →
  isHappy c = bool_decide (timeSlot (lecture c) ∈ preferredSlots' f) →
  onPath allFaculty facultyPreferredSlots rest (path ++ [(f, c)])
    (assign f c (countCombination st)).
Proof.
  intros (Hnd & Hsub & Hkeys & Hids & Hused & Hhappy & Hcover) Hid Hh.
  repeat split; simpl.
  - by apply Map_set_NoDup.
  - intros p [->|Hp]%elem_of_Map_set_weak; rewrite elem_of_app;
      [right; by left|left; auto].
  - intros g Hg Hnot. rewrite Map_set_keys.
    destruct (decide (g = f)) as [|Hne]; [by left|right].
    apply Hkeys; [|rewrite not_elem_of_cons; done].
    rewrite fmap_app, elem_of_app in Hg. destruct Hg as [|Hg]; [done|].
    simpl in Hg. by apply list_elem_of_singleton in Hg.
  - rewrite fmap_app. apply NoDup_app. repeat split; [done| |apply NoDup_singleton].
    intros x Hx Hx'. simpl in Hx'. apply list_elem_of_singleton in Hx' as ->.
    apply list_elem_of_fmap in Hx as (p & Heq & Hp).
    apply Hused in Hp. simpl in Heq. by rewrite <- Heq in Hp.
  - intros p [Hp| ->%list_elem_of_singleton]%elem_of_app;
      [apply Hused in Hp|]; set_solver.
  - apply Forall_app. split; [done|]. by repeat constructor.
  - intros g Hg. rewrite fmap_app, elem_of_app. simpl.
    destruct (Hcover g Hg) as [|[->|]%elem_of_cons]; [by left; left| |by right].
    left; right. by left.
Qed.

Lemma foldl_tryCandidate_valid recurse f rest cur path cs st :
  (∀ c cur' st',
     onPath allFaculty facultyPreferredSlots rest (path ++ [(f, c)]) st' →
     solutionsValid allFaculty facultyPreferredSlots st' →
     solutionsValid allFaculty facultyPreferredSlots (recurse cur' st')) →
  (∀ cur' st', sameConsumed st' (recurse cur' st')) →
  (∀ cur' st', scheduleKept rest st' (recurse cur' st')) →
  Forall (λ c, (id (lecture c) ∉ assignedLectureSlots st)
               ∧ (timeSlot (lecture c) ∉ assignedTimes f st)
               ∧ isHappy c
                 = bool_decide (timeSlot (lecture c) ∈ preferredSlots' f))
    cs →
  onPath allFaculty facultyPreferredSlots (f :: rest) path st →
  solutionsValid allFaculty facultyPreferredSlots st →
  solutionsValid allFaculty facultyPreferredSlots
    (foldl (tryCandidate recurse f cur) st cs).
Proof.
  intros Hrec Hcons Hkept Hcs.
  enough (∀ st', sameConsumed st st' →
            onPath allFaculty facultyPreferredSlots (f :: rest) path st' →
            solutionsValid allFaculty facultyPreferredSlots st' →
            solutionsValid allFaculty facultyPreferredSlots
              (foldl (tryCandidate recurse f cur) st' cs)) as H
    by (apply H, sameConsumed_refl).
  induction Hcs as [|c cs (Hid & Hts & Hh) _ IH]; intros st' Hsame Hpath Hval;
    simpl; [done|].
  destruct Hsame as [Hi Ht].
  assert (sameConsumed st' (tryCandidate recurse f cur st' c)) as Hstep
    by (apply tryCandidate_consumed; [done|by rewrite Hi|by rewrite Ht]).
  apply IH.
  - eapply sameConsumed_trans; [by split|exact Hstep].
  - eapply onPath_kept; [exact Hpath| |apply Hstep].
    by apply tryCandidate_scheduleKept.
  - unfold tryCandidate, solutionsValid. simpl.
    apply (Hrec c); [|exact Hval].
    apply onPath_assign; [done|by rewrite Hi|done].
Qed.

Lemma possible_candidates f st :
  Forall (λ c, (id (lecture c) ∉ assignedLectureSlots st)
               ∧ (timeSlot (lecture c) ∉ assignedTimes f st)
               ∧ isHappy c
                 = bool_decide (timeSlot (lecture c) ∈ preferredSlots' f))
    (possible' f st).
Proof.
  apply Forall_forall. intros c (l & _ & Hid & Hts & ->)%elem_of_possible.
  done.
Qed.

Lemma solutionSchedules_app e1 e2 :
  solutionSchedules (e1 ++ e2) = solutionSchedules e1 ++ solutionSchedules e2.
Proof. apply omap_app. Qed.

Lemma solveFrom_valid rest path i cur st :
  onPath allFaculty facultyPreferredSlots rest path st →
  solutionsValid allFaculty facultyPreferredSlots st →
  solutionsValid allFaculty facultyPreferredSlots (solveFrom' rest i cur st).
Proof.
  revert path i cur st.
  induction rest as [|f rest IH]; intros path i cur st Hpath Hval; simpl.
  - case_decide; [done|].
    unfold solutionsValid. simpl. rewrite solutionSchedules_app.
    apply Forall_app. split; [done|]. simpl. constructor; [|done].
    by apply (onPath_validSchedule path).
  - case_decide; [done|].
    name_loop_state st1.
    apply (foldl_tryCandidate_valid _ f rest cur path).
    + intros c cur' st'. apply IH.
    + apply solveFrom_consumed.
    + apply solveFrom_scheduleKept.
    + apply possible_candidates.
    + subst st1. by case_decide.
    + subst st1. unfold solutionsValid. case_decide; simpl; [|done].
      rewrite !solutionSchedules_app. simpl. by rewrite !app_nil_r.
Qed.

(** ** The schedule after a call, when no faculty member comes twice *)

Lemma foldl_tryCandidate_restores recurse f cur cs st :
  f ∉ (schedule st).*1 →
  (∀ c cur' st',
     schedule st' = schedule st ++ [(f, c)] →
     schedule (recurse cur' st') = schedule st') →
  schedule (foldl (tryCandidate recurse f cur) st cs) = schedule st.
Proof.
  intros Hf Hrec.
  enough (∀ st', schedule st' = schedule st →
            schedule (foldl (tryCandidate recurse f cur) st' cs) = schedule st)
    as H by by apply H.
  induction cs as [|c cs IH]; intros st' Hst'; simpl; [done|].
  apply IH. unfold tryCandidate. simpl.
  rewrite (Hrec c); simpl; rewrite Hst', Map_set_fresh by done; [|done].
  rewrite Map_delete_app, Map_delete_absent by done.
  unfold Map_delete. rewrite filter_cons_False by (simpl; auto).
  by rewrite app_nil_r.
Qed.

Lemma solveFrom_restores rest i cur st :
  NoDup rest →
  (∀ f, f ∈ rest → f ∉ (schedule st).*1) →
  schedule (solveFrom' rest i cur st) = schedule st.
Proof.
  revert i cur st.
  induction rest as [|f rest IH]; intros i cur st Hnd Hfree; simpl.
  - by case_decide.
  - case_decide; [done|].
    apply NoDup_cons in Hnd as [Hf Hnd].
    name_loop_state st1.
    assert (schedule st1 = schedule st) as Hst1 by (subst st1; by case_decide).
    rewrite <- Hst1. apply foldl_tryCandidate_restores.
    + rewrite Hst1. apply Hfree. by left.
    + intros c cur' st' Hst'. apply IH; [done|].
      intros g Hg. rewrite Hst', Hst1, fmap_app, elem_of_app. simpl.
      intros [Hin|Hin%list_elem_of_singleton].
      * by apply (Hfree g); [right|].
      * by subst.
Qed.

(** ** The search and the brute-force reference agree on what is valid *)

Lemma completion_valid a used times :
  completion allLectureSlots a used times ↔
  Forall (λ p, p.2 ∈ allLectureSlots
               ∧ (id p.2 ∉ used) ∧ (timeSlot p.2 ∉ times p.1)) a
  ∧ validAssignment a.
Proof.
  unfold validAssignment. revert used times.
  induction a as [|p a IH]; intros used times; simpl.
  - split; [intros _|done]. repeat split; constructor.
  - rewrite IH, Forall_cons, !NoDup_cons. clear IH.
    assert (Forall (λ q, q.2 ∈ allLectureSlots
                         ∧ (id q.2 ∉ used ∪ {[id p.2]})
                         ∧ (timeSlot q.2
                            ∉ (if decide (q.1 = p.1)
                               then times q.1 ∪ {[timeSlot p.2]}
                               else times q.1))) a
            ↔ Forall (λ q, q.2 ∈ allLectureSlots
                           ∧ (id q.2 ∉ used) ∧ (timeSlot q.2 ∉ times q.1)) a
              ∧ (id p.2 ∉ (λ q, id q.2) <$> a)
              ∧ ((p.1, timeSlot p.2) ∉ (λ q, (q.1, timeSlot q.2)) <$> a))
      as ->.
    { rewrite !Forall_forall. setoid_rewrite list_elem_of_fmap. split.
      - intros H. split; [|split].
        + intros q Hq. destruct (H q Hq) as (? & ? & Hts).
          split; [done|]. split; [set_solver|]. case_decide; set_solver.
        + intros (q & Heq & Hq). destruct (H q Hq) as (_ & ? & _). set_solver.
        + intros (q & Heq & Hq). destruct (H q Hq) as (_ & _ & Hts).
          injection Heq as Hf Ht. rewrite decide_True in Hts by done.
          set_solver.
      - intros (H & Hid & Hts) q Hq. destruct (H q Hq) as (? & ? & ?).
        split; [done|]. split.
        + rewrite not_elem_of_union, not_elem_of_singleton. split; [done|].
          intros Heq. apply Hid. by exists q.
        + case_decide as Hf; [|done].
          rewrite not_elem_of_union, not_elem_of_singleton. split; [done|].
          intros Heq. apply Hts. exists q. by rewrite Hf, Heq. }
    tauto.
Qed.

Lemma elem_of_choices n ls :
  ls ∈ choices allLectureSlots n ↔
  length ls = n ∧ Forall (λ l, l ∈ allLectureSlots) ls.
Proof.
  revert ls. induction n as [|n IH]; intros ls; simpl.
  - rewrite list_elem_of_singleton. split; [by intros ->|].
    by intros [->%nil_length_inv _].
  - rewrite list_elem_of_bind. setoid_rewrite list_elem_of_fmap.
    setoid_rewrite IH. split.
    + intros (l & (ls' & -> & <- & Hall) & Hl). split; [done|by constructor].
    + destruct ls as [|l ls]; [by intros [? _]|].
      intros [Hlen [Hl Hall]%Forall_cons]. exists l. split; [|done].
      exists ls. repeat split; [by injection Hlen|done].
Qed.

Lemma elem_of_completeAssignments a :
  a ∈ completeAssignments allFaculty allLectureSlots ↔
  a.*1 = allFaculty
  ∧ completion allLectureSlots a ∅ (λ _, ∅).
Proof.
  unfold completeAssignments.
  rewrite list_elem_of_filter, list_elem_of_fmap, completion_valid.
  setoid_rewrite elem_of_choices. split.
  - intros (Hv & ls & -> & Hlen & Hall). split; [|split; [|done]].
    + by rewrite fst_zip by lia.
    + apply Forall_forall. intros [f l] Hin. simpl.
      split; [|split; set_solver].
      apply elem_of_zip_r in Hin. by apply (proj1 (Forall_forall _ _) Hall).
  - intros (Hfs & Hall & Hv). split; [done|]. exists (a.*2).
    split; [|split].
    + by rewrite <- Hfs, zip_fst_snd.
    + by rewrite <- Hfs, !length_fmap.
    + apply Forall_fmap. eapply Forall_impl; [exact Hall|]. by intros ? [? _].
Qed.

Lemma foldr_min_least s ss :
  foldr Z.min s ss ∈ s :: ss ∧ Forall (λ x, (foldr Z.min s ss ≤ x)%Z) (s :: ss).
Proof.
  induction ss as [|x ss [Hin Hle]]; simpl.
  - split; [by left|]. by repeat constructor.
  - apply Forall_cons in Hle as [Hs Hle]. split.
    + destruct (Z.min_spec x (foldr Z.min s ss)) as [[_ ->]|[_ ->]].
      * right; by left.
      * apply elem_of_cons in Hin as [->|?]; [by left|by right; right].
    + repeat constructor; [lia..|].
      eapply Forall_impl; [exact Hle|]. simpl. lia.
Qed.

Lemma scoreOf_length a :
  (scoreOf facultyPreferredSlots a ≤ Z.of_nat (length a))%Z.
Proof. unfold scoreOf. pose proof (length_filter (unpreferred facultyPreferredSlots) a). lia. Qed.

(** ** The events of a call *)

Lemma foldl_tryCandidate_emits (P : Event → Prop) recurse f cur cs st :
  (∀ cur' st', Forall P (posted st') → Forall P (posted (recurse cur' st'))) →
  Forall P (posted st) →
  Forall P (posted (foldl (tryCandidate recurse f cur) st cs)).
Proof.
  intros Hrec. revert st.
  induction cs as [|c cs IH]; intros st Hst; simpl; [done|].
  apply IH. unfold tryCandidate. simpl. by apply Hrec.
Qed.

Lemma solveFrom_emits (P : Event → Prop) rest i cur st :
  (∀ s c, P (postMessage (solutionUpdate s c))) →
  P yieldWorker →
  (∀ k f c, rest !! k = Some f → P (postMessage (progressUpdate (i + k) f c))) →
  Forall P (posted st) →
  Forall P (posted (solveFrom' rest i cur st)).
Proof.
  intros Hsol Hyield. revert i cur st.
  induction rest as [|f rest IH]; intros i cur st Hprog Hst; simpl.
  - case_decide; [done|]. simpl. apply Forall_app. by repeat constructor.
  - case_decide; [done|].
    apply foldl_tryCandidate_emits.
    + intros cur' st'. apply IH. intros k g c Hk.
      replace (S i + k) with (i + S k) by lia. by apply Hprog.
    + case_decide; simpl; [|done]. rewrite !Forall_app.
      repeat split; [done|..]; repeat constructor; [|done].
      rewrite <- (Nat.add_0_r i). by apply Hprog.
Qed.

End SearchProperties.

(** ** The listener and the worker *)

Lemma onmessage_start random d :
  let st :=
    searchEnd (allFaculty d) (allLectureSlots d) (requestPreferences d)
      (initialBestScore d) in
  onmessage random (Some d)
  = (posted st
       ++ [postMessage (complete (combinations (progressState st))
                          (bestScore (progressState st)))],
     fulfilled).
Proof. reflexivity. Qed.

Lemma deliverAt_nothing k run : deliverAt k [] run = run.
Proof.
  revert k. induction run as [|e run IH]; intros k; simpl; [done|].
  destruct e; [by rewrite IH|]. destruct k; [done|by rewrite IH].
Qed.

Lemma onPath_initial allFaculty facultyPreferredSlots initialBestScore :
  onPath allFaculty facultyPreferredSlots allFaculty []
    (initialState initialBestScore).
Proof.
  unfold onPath. simpl.
  split; [constructor|]. split; [by intros ? ?%elem_of_nil|].
  split; [by intros ? ?%elem_of_nil|]. split; [constructor|].
  split; [by intros ? ?%elem_of_nil|]. split; [constructor|]. auto.
Qed.

Lemma searchEnd_advances allFaculty allLectureSlots facultyPreferredSlots b :
  let st := searchEnd allFaculty allLectureSlots facultyPreferredSlots b in
  descends b (solutionScores (posted st))
  ∧ bestScore (progressState st) = lastScore b (solutionScores (posted st)).
Proof.
  simpl. unfold searchEnd, solveForFaculty.
  destruct (solveFrom_advances allLectureSlots facultyPreferredSlots
              (drop 0 allFaculty) 0 0%Z (initialState b))
    as (new & Hp & Hd & Hb).
  simpl in Hp. rewrite Hp. done.
Qed.

Lemma searchEnd_bounded allFaculty allLectureSlots facultyPreferredSlots b :
  let best :=
    bestScore (progressState
      (searchEnd allFaculty allLectureSlots facultyPreferredSlots b)) in
  (best ≤ b)%Z
  ∧ Forall (λ s, (best ≤ s)%Z)
      (bruteForceScores allFaculty allLectureSlots facultyPreferredSlots)
  ∧ (best = b
     ∨ best ∈ bruteForceScores allFaculty allLectureSlots
                facultyPreferredSlots).
Proof.
  simpl. unfold searchEnd, solveForFaculty. rewrite drop_0.
  destruct (solveFrom_bounded allLectureSlots facultyPreferredSlots
              allFaculty 0 0%Z (initialState b)) as (Hle & Hlow & Hatt).
  simpl in Hle, Hlow, Hatt. split; [done|]. split.
  - apply Forall_forall. intros s (a & -> & Ha)%list_elem_of_fmap.
    apply elem_of_completeAssignments in Ha as [Hfs Hc].
    rewrite <- (Z.add_0_l (scoreOf _ _)). apply Hlow. split; [done|].
    eapply completion_ext; [|exact Hc]. done.
  - destruct Hatt as [?|(a & [Hfs Hc] & Heq)]; [by left|right].
    rewrite Heq, Z.add_0_l. apply list_elem_of_fmap_2.
    apply elem_of_completeAssignments. split; [done|].
    eapply completion_ext; [|exact Hc]. done.
Qed.

Lemma onmessage_no_error random d message :
  postMessage (error message) ∉ (onmessage random (Some d)).1.
Proof.
  rewrite onmessage_start. simpl.
  intros [Hin|Hin%list_elem_of_singleton]%elem_of_app; [|done].
  assert (Forall searchEvent
            (posted (searchEnd (allFaculty d) (allLectureSlots d)
                       (requestPreferences d) (initialBestScore d))))
    as Hsearch by by apply solveFrom_emits.
  by apply (proj1 (Forall_forall _ _) Hsearch) in Hin.
Qed.

(** * The claims *)

(** C1, as the specification states it, fails: with one faculty member and
    an empty pool of lecture slots there is no valid complete assignment, so
    the brute-force reference has no minimum, and the search started at
    faculty-count + 1 = 2 returns that bound as [finalScore]. *)
Lemma C1_no_assignment_counterexample :
  ¬ (bruteForceMinimum ["A"] [] ∅
     = Some (finalScore (solveFullSearchInWorker noRandom ["A"] [] ∅ ∅ 2).1)).
Proof. vm_compute. discriminate. Qed.

(** C1, amended: started with [initialBestScore] = faculty-count + 1,
    [solveFullSearchInWorker] returns as [finalScore] the least score of the
    valid complete assignments that the brute-force reference enumerates,
    whenever there is such an assignment; when there is none it returns the
    bound faculty-count + 1 it was started with. *)
Theorem C1_search_returns_minimum random allFaculty allLectureSlots
  teacherAvailabilityMap facultyPreferredSlots :
  let bound := (Z.of_nat (length allFaculty) + 1)%Z in
  let result :=
    (solveFullSearchInWorker random allFaculty allLectureSlots
       teacherAvailabilityMap facultyPreferredSlots bound).1 in
  match bruteForceMinimum allFaculty allLectureSlots facultyPreferredSlots with
  | Some least => finalScore result = least
  | None => finalScore result = bound
  end.
Proof.
  simpl.
  destruct (searchEnd_bounded allFaculty allLectureSlots facultyPreferredSlots
              (Z.of_nat (length allFaculty) + 1)) as (Hle & Hlow & Hatt).
  unfold bruteForceMinimum.
  destruct (bruteForceScores allFaculty allLectureSlots facultyPreferredSlots)
    as [|s ss] eqn:Hscores.
  - destruct Hatt as [?|?%elem_of_nil]; done.
  - destruct (foldr_min_least s ss) as [Hin Hleast].
    assert (foldr Z.min s ss ≤ Z.of_nat (length allFaculty))%Z as Hsmall.
    { rewrite <- Hscores in Hin.
      apply list_elem_of_fmap in Hin as (a & -> & Ha).
      apply elem_of_completeAssignments in Ha as [<- _].
      rewrite length_fmap. apply scoreOf_length. }
    apply (proj1 (Forall_forall _ _) Hlow) in Hin as Hbest.
    destruct Hatt as [Heq|Hatt]; [lia|].
    apply (proj1 (Forall_forall _ _) Hleast) in Hatt. lia.
Qed.

(** C2: in every [solutionUpdate] message of a search, each faculty member
    of the input list is the key of exactly one entry of the transferred
    schedule, no lecture id occurs in two entries, and the [isHappy] flag of
    each entry says whether the time slot of its lecture is in the preference
    set of its faculty member. *)
Theorem C2_emitted_schedules_valid random d :
  Forall (validSchedule (allFaculty d) (requestPreferences d))
    (solutionSchedules (onmessage random (Some d)).1).
Proof.
  rewrite onmessage_start. simpl. rewrite solutionSchedules_app, app_nil_r.
  apply (solveFrom_valid _ _ _ _ []); [|constructor].
  rewrite drop_0. apply onPath_initial.
Qed.

(** C3: in a search run the scores of the successive [solutionUpdate]
    messages strictly decrease, each of them is strictly below the
    [initialBestScore] of the request, and the [complete] message is the last
    message of the run: nothing follows it and nothing before it is a
    [complete] or an [error]. *)
Theorem C3_scores_decrease_complete_last random d :
  let events := (onmessage random (Some d)).1 in
  descends (initialBestScore d) (solutionScores events)
  ∧ Forall (λ s, (s < initialBestScore d)%Z) (solutionScores events)
  ∧ ∃ search combos score,
      events = search ++ [postMessage (complete combos score)]
      ∧ Forall searchEvent search.
Proof.
  rewrite onmessage_start. simpl.
  rewrite solutionScores_app, app_nil_r.
  destruct (searchEnd_advances (allFaculty d) (allLectureSlots d)
              (requestPreferences d) (initialBestScore d)) as [Hd _].
  split; [done|]. split; [by apply descends_below|].
  eexists _, _, _. split; [done|].
  by apply solveFrom_emits.
Qed.

(** C4: a call at depth faculty-count gets to its base case (line 49) only
    behind the pruning check, that is with a running score strictly below
    the best score; it then records the running score as the best score and
    posts the schedule, and otherwise changes nothing.  Over any call of
    [solveForFaculty] the best score changes by such records only: every new
    [solutionUpdate] is strictly below the best score before it, the best
    score after the call is the score of the last of them (the old best
    score when there is none), and so the best score has changed if and only
    if the call has posted a [solutionUpdate]. *)
Theorem C4_best_score_replaced_on_improvement allFaculty allLectureSlots
  facultyPreferredSlots :
  (∀ currentUnhappy st,
     solveForFaculty allFaculty allLectureSlots facultyPreferredSlots
       (length allFaculty) currentUnhappy st
     = if decide (bestScore (progressState st) ≤ currentUnhappy)%Z then st
       else emit (postMessage (solutionUpdate (schedule st) currentUnhappy))
              (setBestScore currentUnhappy
                 (setFacultyIndex (length allFaculty) st)))
  ∧ (∀ facultyIndex currentUnhappy st,
       advances st
         (solveForFaculty allFaculty allLectureSlots facultyPreferredSlots
            facultyIndex currentUnhappy st))
  ∧ (∀ facultyIndex currentUnhappy st,
       let st' :=
         solveForFaculty allFaculty allLectureSlots facultyPreferredSlots
           facultyIndex currentUnhappy st in
       bestScore (progressState st') ≠ bestScore (progressState st)
       ↔ solutionScores (drop (length (posted st)) (posted st')) ≠ []).
Proof.
  split; [|split].
  - intros cur st. unfold solveForFaculty. by rewrite drop_all.
  - intros i cur st. apply solveFrom_advances.
  - intros i cur st. simpl.
    destruct (solveFrom_advances allLectureSlots facultyPreferredSlots
                (drop i allFaculty) i cur st) as (new & Hp & Hd & Hb).
    unfold solveForFaculty. rewrite Hp, drop_app_length, Hb. split.
    + intros Hne Hnil. apply Hne. by rewrite Hnil.
    + intros Hne Heq. by apply Hne, (descends_lastScore_eq _ _ Hd).
Qed.

(** C5, as the specification states it, fails: with the faculty list
    ["A"; "A"] the call [solveForFaculty(1, 1)] is entered with the entry of
    "A" in the schedule, overwrites it, and deletes it on its way back. *)
Lemma C5_twice_counterexample :
  let st' := solveForFaculty ["A"; "A"] twiceLectures ∅ 1 1 twiceEntry in
  ¬ (schedule st' = schedule twiceEntry
     ∧ assignedLectureSlots st' = assignedLectureSlots twiceEntry
     ∧ ∀ f, assignedTimes f st' = assignedTimes f twiceEntry).
Proof. cbv zeta. intros [H _]. vm_compute in H. discriminate. Qed.

(** The state [twiceEntry] is the one in which the search on ["A"; "A"]
    makes its first recursive call. *)
Example twiceEntry_reached :
  let c1 := {| lecture := {| id := 1; timeSlot := "9am" |}; isHappy := false |} in
  let c2 := {| lecture := {| id := 2; timeSlot := "10am" |}; isHappy := false |} in
  let recurse := solveForFaculty ["A"; "A"] twiceLectures ∅ 1 in
  searchEnd ["A"; "A"] twiceLectures ∅ 3
  = tryCandidate recurse "A" 0 (backtrack "A" c1 (recurse 1%Z twiceEntry)) c2.
Proof. vm_compute. reflexivity. Qed.

(** C5, amended: a tentative addition is undone by the three statements
    behind the awaited recursive call, the only way out of the loop body
    that the code has.  After [solveForFaculty] returns, the set of assigned
    lecture ids and, for every faculty member, the set of consumed time
    slots are what they were on entry; and when the faculty members from
    [facultyIndex] on are pairwise distinct and none of them is a key of the
    schedule on entry, the schedule is what it was on entry too. *)
Theorem C5_state_restored allFaculty allLectureSlots facultyPreferredSlots
  facultyIndex currentUnhappy st :
  let st' :=
    solveForFaculty allFaculty allLectureSlots facultyPreferredSlots
      facultyIndex currentUnhappy st in
  assignedLectureSlots st' = assignedLectureSlots st
  ∧ (∀ f, assignedTimes f st' = assignedTimes f st)
  ∧ (NoDup (drop facultyIndex allFaculty) →
     (∀ f, f ∈ drop facultyIndex allFaculty → f ∉ (schedule st).*1) →
     schedule st' = schedule st).
Proof.
  simpl.
  destruct (solveFrom_consumed allLectureSlots facultyPreferredSlots
              (drop facultyIndex allFaculty) facultyIndex currentUnhappy st)
    as [Hids Htimes].
  split; [done|]. split; [done|].
  intros Hnd Hfree. by apply solveFrom_restores.
Qed.

(** The map [facultyTimeSlotMap] itself is not what it was: the search
    leaves an empty set behind for every faculty member it tried. *)
Example facultyTimeSlotMap_keeps_empty_sets :
  facultyTimeSlotMap (initialState 2) = ∅
  ∧ facultyTimeSlotMap
      (searchEnd ["A"; "B"] scenarioLectures
         (requestPreferences (scenario 2)) 2)
    = {[ "A" := ∅; "B" := ∅ ]}.
Proof. split; [reflexivity|]. vm_compute. reflexivity. Qed.

Lemma C5_state_restored_witness :
  NoDup (drop 0 ["A"; "B"])
  ∧ (∀ f : string,
       f ∈ drop 0 ["A"; "B"] → f ∉ (schedule (initialState 2)).*1)
  ∧ schedule
      (solveForFaculty ["A"; "B"] scenarioLectures
         (requestPreferences (scenario 2)) 0 0 (initialState 2))
    = schedule (initialState 2).
Proof.
  assert (NoDup (drop 0 ["A"; "B"])) as Hnd
    by (apply (bool_decide_unpack _); vm_compute; exact I).
  assert (∀ f : string,
            f ∈ drop 0 ["A"; "B"] → f ∉ (schedule (initialState 2)).*1)
    as Hfree by (intros f _; simpl; apply not_elem_of_nil).
  split; [exact Hnd|]. split; [exact Hfree|].
  exact (proj2 (proj2 (C5_state_restored ["A"; "B"] scenarioLectures
                         (requestPreferences (scenario 2)) 0 0%Z
                         (initialState 2))) Hnd Hfree).
Defined.

(** C6, as the specification states it, fails: for [wideRequest] a message
    without payload that arrives at the first suspension of the search, when
    no candidate has been tried yet and the best score is the 6 of the
    request, is followed by 1236 node expansions before the [complete]
    message, which carries the score 5. *)
Lemma C6_no_cancellation_counterexample :
  let events := workerEvents noRandom wideRequest (Some 0) in
  combinationsAtYield 0 0 events = Some 0
  ∧ bestAtYield 0 6 events = Some 6%Z
  ∧ ¬ ∃ combos score,
        last events = Some (postMessage (complete combos score))
        ∧ (combos - 0 ≤ 1000 ∨ score = 6%Z).
Proof.
  cbv zeta. split; [by vm_compute|]. split; [by vm_compute|].
  intros (combos & score & Hlast & Hle).
  vm_compute in Hlast. injection Hlast as <- <-. destruct Hle; [lia|done].
Qed.

(** C6, amended: the worker has no cancellation.  The listener called with
    a message without payload throws before its [try] block and posts
    nothing, and the search in progress does not look at inbound messages:
    whatever the suspension at which such a message arrives, the worker
    posts exactly what it posts when none arrives, so the [complete] message
    comes when the search is exhausted and carries its final best score. *)
Theorem C6_signal_is_ignored random d k :
  onmessage random None = ([], rejected "TypeError")
  ∧ workerEvents random d (Some k) = workerEvents random d None.
Proof.
  split; [done|]. unfold workerEvents. simpl. apply deliverAt_nothing.
Qed.

(** C7, as the specification states it, fails: [duplicateIdRequest] has two
    lecture slots with the id 1; the listener tries two candidates and ends
    with the [complete] message, it does not answer with an [error]
    message. *)
Lemma C7_no_validation_counterexample :
  malformed duplicateIdRequest
  ∧ last (onmessage noRandom (Some duplicateIdRequest)).1
    = Some (postMessage (complete 2 0))
  ∧ ¬ ∃ message,
        (onmessage noRandom (Some duplicateIdRequest)).1
        = [postMessage (error message)].
Proof.
  split; [|split].
  - left. simpl. rewrite NoDup_cons. intros [Hn _]. apply Hn. by left.
  - vm_compute. reflexivity.
  - intros (message & H). vm_compute in H. discriminate.
Qed.

(** C7, amended: the listener does not validate the request.  For every
    start request, malformed or not, it runs the search, posts no [error]
    message, ends with the [complete] message, and its promise is
    fulfilled. *)
Theorem C7_every_request_is_searched random d :
  (onmessage random (Some d)).2 = fulfilled
  ∧ (∀ message, postMessage (error message) ∉ (onmessage random (Some d)).1)
  ∧ ∃ combos score,
      last (onmessage random (Some d)).1
      = Some (postMessage (complete combos score)).
Proof.
  split; [done|]. split; [intros message; apply onmessage_no_error|].
  rewrite onmessage_start. simpl. eexists _, _. apply last_snoc.
Qed.

(** C8: when no valid complete assignment scores strictly below the
    [initialBestScore] of the request, the run ends normally, posts no
    [solutionUpdate] message, and its [complete] message carries that
    [initialBestScore] as [finalScore]. *)
Theorem C8_bound_never_beaten random d :
  Forall (λ s, (initialBestScore d ≤ s)%Z)
    (bruteForceScores (allFaculty d) (allLectureSlots d)
       (requestPreferences d)) →
  (onmessage random (Some d)).2 = fulfilled
  ∧ solutionScores (onmessage random (Some d)).1 = []
  ∧ (∀ message, postMessage (error message) ∉ (onmessage random (Some d)).1)
  ∧ ∃ combos,
      last (onmessage random (Some d)).1
      = Some (postMessage (complete combos (initialBestScore d))).
Proof.
  intros Hnone.
  pose proof (λ message, onmessage_no_error random d message) as Herr.
  rewrite onmessage_start in *. simpl in *.
  destruct (searchEnd_bounded (allFaculty d) (allLectureSlots d)
              (requestPreferences d) (initialBestScore d))
    as (Hle & _ & Hatt).
  destruct (searchEnd_advances (allFaculty d) (allLectureSlots d)
              (requestPreferences d) (initialBestScore d)) as [Hd Hb].
  simpl in *.
  assert (bestScore (progressState
            (searchEnd (allFaculty d) (allLectureSlots d)
               (requestPreferences d) (initialBestScore d)))
          = initialBestScore d) as Hbest.
  { destruct Hatt as [?|Hin]; [done|].
    apply (proj1 (Forall_forall _ _) Hnone) in Hin. lia. }
  split; [done|]. split.
  - rewrite solutionScores_app, app_nil_r.
    apply (descends_lastScore_eq (initialBestScore d)); congruence.
  - split; [done|]. eexists. by rewrite last_snoc, Hbest.
Qed.

Lemma C8_bound_never_beaten_witness :
  Forall (λ s, (1 ≤ s)%Z)
    (bruteForceScores ["A"; "B"] scenarioLectures
       (requestPreferences (scenario 1)))
  ∧ (onmessage noRandom (Some (scenario 1))).2 = fulfilled
  ∧ solutionScores (onmessage noRandom (Some (scenario 1))).1 = []
  ∧ (∀ message,
       postMessage (error message) ∉ (onmessage noRandom (Some (scenario 1))).1)
  ∧ ∃ combos,
      last (onmessage noRandom (Some (scenario 1))).1
      = Some (postMessage (complete combos 1)).
Proof.
  assert (Forall (λ s, (1 ≤ s)%Z)
            (bruteForceScores ["A"; "B"] scenarioLectures
               (requestPreferences (scenario 1)))) as H
    by (apply (bool_decide_unpack _); vm_compute; exact I).
  split; [exact H|].
  exact (C8_bound_never_beaten noRandom (scenario 1) H).
Defined.

(** The two scenarios of the specification, run. *)
Example scenario_bound_2 :
  (onmessage noRandom (Some (scenario 2))).1
  = [ postMessage (progressUpdate 0 "A" 0);
      yieldWorker;
      postMessage
        (solutionUpdate
           [ ("A", {| lecture := {| id := 3; timeSlot := "10am" |};
                      isHappy := true |});
             ("B", {| lecture := {| id := 1; timeSlot := "9am" |};
                      isHappy := false |}) ]
           1);
      postMessage (complete 5 1) ].
Proof. vm_compute. reflexivity. Qed.

Example scenario_bound_1 :
  (onmessage noRandom (Some (scenario 1))).1
  = [ postMessage (progressUpdate 0 "A" 0);
      yieldWorker;
      postMessage (complete 5 1) ].
Proof. vm_compute. reflexivity. Qed.

(** C9: two runs on the same inputs give the same result in every respect,
    whatever the random number generator does in either run: the shuffled
    copy of the faculty list is computed and not used, and the faculty
    member that a call at a given index works on is the one at that index of
    the input list. *)
Theorem C9_runs_independent_of_random random1 random2 allFaculty
  allLectureSlots teacherAvailabilityMap facultyPreferredSlots
  initialBestScore data :
  solveFullSearchInWorker random1 allFaculty allLectureSlots
    teacherAvailabilityMap facultyPreferredSlots initialBestScore
  = solveFullSearchInWorker random2 allFaculty allLectureSlots
      teacherAvailabilityMap facultyPreferredSlots initialBestScore
  ∧ onmessage random1 data = onmessage random2 data
  ∧ Forall (progressNamed allFaculty)
      (solveFullSearchInWorker random1 allFaculty allLectureSlots
         teacherAvailabilityMap facultyPreferredSlots initialBestScore).2.
Proof.
  split; [reflexivity|]. split; [by destruct data|].
  simpl. unfold searchEnd, solveForFaculty. rewrite drop_0.
  by apply solveFrom_emits.
Qed.

(** The shuffle itself does depend on the generator. *)
Example shuffleArray_depends_on_random :
  shuffleArray (λ _, 0) ["A"; "B"] = ["B"; "A"]
  ∧ shuffleArray (λ _, 1) ["A"; "B"] = ["A"; "B"].
Proof. split; reflexivity. Qed.

(** C10: with [initialBestScore] ≤ 0 and a faculty list that is not empty
    the root call is pruned at once: no candidate is tried, nothing is
    posted by the search, and the result is [finalCombinations] = 0 with
    [finalScore] the [initialBestScore] it was given. *)
Theorem C10_root_pruned random allFaculty allLectureSlots
  teacherAvailabilityMap facultyPreferredSlots initialBestScore :
  (initialBestScore ≤ 0)%Z →
  allFaculty ≠ [] →
  solveFullSearchInWorker random allFaculty allLectureSlots
    teacherAvailabilityMap facultyPreferredSlots initialBestScore
  = ({| finalCombinations := 0; finalScore := initialBestScore |}, []).
Proof.
  intros Hle Hne.
  unfold solveFullSearchInWorker, searchEnd, solveForFaculty.
  rewrite drop_0. destruct allFaculty as [|f rest]; [done|].
  simpl. by rewrite decide_True.
Qed.

Lemma C10_root_pruned_witness :
  solveFullSearchInWorker noRandom ["A"; "B"] scenarioLectures ∅
    (requestPreferences (scenario 0)) 0
  = ({| finalCombinations := 0; finalScore := 0 |}, []).
Proof.
  apply (C10_root_pruned noRandom ["A"; "B"] scenarioLectures ∅
           (requestPreferences (scenario 0)) 0%Z); [lia|done].
Defined.

(** * Further properties of the code *)

(** ** [shuffleArray] returns a permutation, and can return each *)

Lemma delete_insert_same {A} (l : list A) i x :
  delete i (<[i:=x]> l) = delete i l.
Proof.
  revert i. induction l as [|y l IH]; intros [|i]; simpl; [done..|].
  by rewrite IH.
Qed.

Lemma insert_Permutation {A} (l : list A) i x y :
  l !! i = Some x → <[i:=y]> l ≡ₚ y :: delete i l.
Proof.
  intros Hi. rewrite <- (delete_insert_same l i y).
  apply delete_Permutation, list_lookup_insert_eq.
  by eapply lookup_lt_Some.
Qed.

Lemma swap_Permutation {A} (i j : nat) (array : list A) :
  swap i j array ≡ₚ array.
Proof.
  unfold swap.
  destruct (array !! i) as [x|] eqn:Hi; [|done].
  destruct (array !! j) as [y|] eqn:Hj; [|done].
  destruct (decide (i = j)) as [->|Hne].
  - rewrite list_insert_insert_eq. rewrite Hi in Hj. injection Hj as ->.
    by rewrite list_insert_id.
  - assert (<[i:=y]> array !! j = Some y) as Hj'
      by by rewrite list_lookup_insert_ne.
    etrans; [apply (insert_Permutation _ j y x Hj')|].
    symmetry. etrans; [apply (delete_Permutation array i x Hi)|].
    apply Permutation_skip. apply (inj (y ::.)).
    etrans; [symmetry; apply (insert_Permutation array i x y Hi)|].
    apply (delete_Permutation _ j y Hj').
Qed.

Lemma shuffleLoop_Permutation {A} random calls i (array : list A) :
  shuffleLoop random calls i array ≡ₚ array.
Proof.
  revert calls array. induction i as [|i IH]; intros calls array; simpl; [done|].
  by rewrite IH, swap_Permutation.
Qed.

(** X1: whatever the generator does, [shuffleArray] returns its elements
    in some order: the result is a permutation of the array and has its
    length. *)
Theorem X1_shuffleArray_permutes {A} random (array : list A) :
  shuffleArray random array ≡ₚ array
  ∧ length (shuffleArray random array) = length array.
Proof.
  assert (shuffleArray random array ≡ₚ array) as H
    by apply shuffleLoop_Permutation.
  split; [done|]. by rewrite H.
Qed.

Lemma shuffleLoop_ext {A} random1 random2 calls i (array : list A) :
  (∀ n, calls ≤ n → random1 n = random2 n) →
  shuffleLoop random1 calls i array = shuffleLoop random2 calls i array.
Proof.
  revert calls array. induction i as [|i IH]; intros calls array Heq; simpl;
    [done|].
  rewrite (Heq calls) by lia. apply IH. intros n Hn. apply Heq. lia.
Qed.

Lemma swap_found {A} (i j : nat) (array : list A) x y :
  array !! i = Some y → array !! j = Some x →
  swap i j array = <[j := y]> (<[i := x]> array).
Proof. intros Hi Hj. unfold swap. by rewrite Hi, Hj. Qed.

Lemma shuffleLoop_reaches {A} i calls (array target : list A) :
  length target = length array →
  i < length array →
  take (S i) target ≡ₚ take (S i) array →
  drop (S i) target = drop (S i) array →
  ∃ random, shuffleLoop random calls i array = target.
Proof.
  revert calls array. induction i as [|i IH]; intros calls array Hlen Hi Htake Hdrop.
  - exists (λ _, 0). simpl.
    destruct array as [|y array]; [simpl in Hi; lia|].
    destruct target as [|x target]; [done|]. simpl in *.
    rewrite !take_0 in Htake. rewrite !drop_0 in Hdrop.
    apply Permutation_singleton_inj in Htake. congruence.
  - set (k := S i) in *.
    destruct (lookup_lt_is_Some_2 target k) as [x Hx]; [lia|].
    destruct (lookup_lt_is_Some_2 array k) as [y Hy]; [lia|].
    assert (∃ j, array !! j = Some x ∧ j < S k) as (j & Hj & Hjk).
    { apply elem_of_take. rewrite <- Htake. apply elem_of_take. eauto. }
    set (array' := swap k j array).
    assert (array' = <[j := y]> (<[k := x]> array)) as Harray'
      by by apply swap_found.
    assert (array' !! k = Some x) as Hx'.
    { rewrite Harray'. destruct (decide (j = k)) as [->|Hne].
      - rewrite list_lookup_insert_eq by (rewrite length_insert; lia). congruence.
      - rewrite list_lookup_insert_ne by done.
        apply list_lookup_insert_eq. lia. }
    assert (length array' = length array) as Hlen'
      by (apply Permutation_length, swap_Permutation).
    destruct (IH (S calls) array') as [random' Hrandom'].
    + lia.
    + lia.
    + apply (inj (.++ [x])).
      rewrite <- (take_S_r target k x), <- (take_S_r array' k x) by done.
      rewrite Htake, Harray'.
      rewrite !take_insert_lt by lia.
      rewrite <- (swap_found k j (take (S k) array) x y)
        by (by rewrite lookup_take_lt by lia).
      by rewrite swap_Permutation.
    + rewrite (drop_S target x k), (drop_S array' x k) by done.
      f_equal. rewrite Hdrop, Harray'.
      by rewrite !drop_insert_lt by lia.
    + exists (λ n, if decide (n = calls) then j else random' n).
      change (shuffleLoop ?r calls k array)
        with (shuffleLoop r (S calls) i (swap k (r calls mod (k + 1)) array)).
      cbv beta. rewrite decide_True by done.
      rewrite Nat.mod_small by lia. fold array'.
      rewrite <- Hrandom'. apply shuffleLoop_ext.
      intros n Hn. by rewrite decide_False by lia.
Qed.

(** X2: [shuffleArray] can return every order of the array: for each
    permutation of it there is a generator under which the shuffle returns
    that permutation. *)
Theorem X2_shuffleArray_reaches_every_order {A} (array target : list A) :
  target ≡ₚ array → ∃ random, shuffleArray random array = target.
Proof.
  intros Hperm. unfold shuffleArray.
  destruct array as [|y array].
  - apply Permutation_nil_r in Hperm as ->. by exists (λ _, 0).
  - apply Permutation_length in Hperm as Hlen.
    apply shuffleLoop_reaches; [done|simpl; lia|..].
    + rewrite !take_ge by (simpl in *; lia). done.
    + rewrite !drop_ge by (simpl in *; lia). done.
Qed.

Lemma X2_shuffleArray_reaches_every_order_witness :
  ["C"; "A"; "B"] ≡ₚ ["A"; "B"; "C"]
  ∧ ∃ random, shuffleArray random ["A"; "B"; "C"] = ["C"; "A"; "B"].
Proof.
  assert (["C"; "A"; "B"] ≡ₚ ["A"; "B"; "C"]) as H
    by (apply (bool_decide_unpack _); vm_compute; exact I).
  split; [exact H|].
  exact (X2_shuffleArray_reaches_every_order ["A"; "B"; "C"] ["C"; "A"; "B"] H).
Defined.

(** ** The lecture slots grouped by time slot *)

Lemma groupByTime_foldl (m : gmap string (list LectureSlot)) ls t :
  foldl (λ m l, <[timeSlot l := default [] (m !! timeSlot l) ++ [l]]> m) m ls
    !! t
  = match m !! t, filter (λ l, timeSlot l = t) ls with
    | None, [] => None
    | o, new => Some (default [] o ++ new)
    end.
Proof.
  revert m. induction ls as [|l ls IH]; intros m; simpl.
  - destruct (m !! t); simpl; [by rewrite app_nil_r|done].
  - rewrite IH. rewrite filter_cons.
    destruct (decide (timeSlot l = t)) as [<-|Hne].
    + rewrite lookup_insert_eq. simpl.
      destruct (m !! timeSlot l) as [old|]; simpl.
      * rewrite <- app_assoc. simpl.
        by destruct (old ++ l :: filter _ ls) eqn:?, (filter _ ls).
      * by destruct (filter _ ls).
    + by rewrite lookup_insert_ne.
Qed.

(** X3: [lectureSlotsByTime] (lines 34 to 38) has a key for a time slot
    exactly when some lecture slot has it, and holds under it the lecture
    slots of that time slot in the order of the pool. *)
Theorem X3_groupByTime_lookup allLectureSlots t :
  groupByTime allLectureSlots !! t
  = match filter (λ l, timeSlot l = t) allLectureSlots with
    | [] => None
    | group => Some group
    end.
Proof.
  unfold groupByTime. rewrite groupByTime_foldl, lookup_empty. simpl.
  by destruct (filter _ allLectureSlots).
Qed.

(** ** The preferences as the listener rebuilds them *)

Lemma reconstruct_lookup (pairs : list (string * list string))
  (m : gmap string (gset string)) k :
  foldl (λ m p, <[p.1 := p.2]> m) m
    ((λ p, (p.1, list_to_set p.2)) <$> pairs) !! k
  = match last (filter (λ p, p.1 = k) pairs) with
    | Some p => Some (list_to_set p.2)
    | None => m !! k
    end.
Proof.
  revert m. induction pairs as [|p pairs IH]; intros m; simpl; [done|].
  rewrite IH, filter_cons. destruct (decide (p.1 = k)) as [<-|Hne].
  - rewrite last_cons, lookup_insert_eq.
    by destruct (last (filter _ pairs)).
  - by rewrite lookup_insert_ne.
Qed.

(** X4: the preference set that the search uses for a faculty member is
    the set of the last pair of that member in the transferred array (a
    later pair overrides an earlier one), and the empty set when the array
    has no pair for the member. *)
Theorem X4_preferences_last_entry_wins d f :
  preferredSlots (requestPreferences d) f
  = match last (filter (λ p, p.1 = f) (facultyPreferredSlots d)) with
    | Some p => list_to_set p.2
    | None => ∅
    end.
Proof.
  unfold preferredSlots, requestPreferences, Map_of_pairs.
  rewrite reconstruct_lookup, lookup_empty.
  by destruct (last (filter _ (facultyPreferredSlots d))).
Qed.

(** ** The order of the candidates *)

Lemma sortInsert_unhappy x l :
  isHappy x = false → sortInsert happyFirst x l = l ++ [x].
Proof.
  intros Hx. induction l as [|y l IH]; simpl; [done|].
  rewrite decide_True; [by rewrite IH|].
  unfold happyFirst. rewrite Hx. destruct (isHappy y); simpl; lia.
Qed.

Lemma sortInsert_happy x hs us :
  isHappy x = true →
  Forall (λ c, isHappy c = true) hs →
  Forall (λ c, isHappy c = false) us →
  sortInsert happyFirst x (hs ++ us) = hs ++ x :: us.
Proof.
  intros Hx Hhs Hus. induction Hhs as [|y hs Hy _ IH]; simpl.
  - destruct Hus as [|y us Hy _]; simpl; [done|].
    rewrite decide_False; [done|]. unfold happyFirst. rewrite Hx, Hy. simpl. lia.
  - rewrite decide_True; [by rewrite IH|].
    unfold happyFirst. rewrite Hx, Hy. simpl. lia.
Qed.

Lemma Array_sort_happyFirst l :
  Array_sort happyFirst l
  = filter (λ c, isHappy c = true) l ++ filter (λ c, isHappy c = false) l.
Proof.
  unfold Array_sort.
  enough (∀ hs us,
            Forall (λ c, isHappy c = true) hs →
            Forall (λ c, isHappy c = false) us →
            foldl (λ acc x, sortInsert happyFirst x acc) (hs ++ us) l
            = (hs ++ filter (λ c, isHappy c = true) l)
              ++ (us ++ filter (λ c, isHappy c = false) l)) as H
    by (apply (H [] []); constructor).
  induction l as [|x l IH]; intros hs us Hhs Hus; simpl.
  - by rewrite !app_nil_r.
  - destruct (isHappy x) eqn:Hx.
    + rewrite sortInsert_happy by done.
      rewrite filter_cons_True, filter_cons_False by congruence.
      replace (hs ++ x :: us) with ((hs ++ [x]) ++ us)
        by (by rewrite <- app_assoc).
      rewrite IH; [|by apply Forall_app; repeat constructor|done].
      rewrite <- !app_assoc. simpl. reflexivity.
    + rewrite sortInsert_unhappy by done.
      rewrite filter_cons_False, filter_cons_True by congruence.
      replace ((hs ++ us) ++ [x]) with (hs ++ (us ++ [x]))
        by (by rewrite app_assoc).
      rewrite IH; [|done|by apply Forall_app; repeat constructor].
      rewrite <- !app_assoc. simpl. reflexivity.
Qed.

(** X5: the candidates of a call are the free lecture slots, those with a
    preferred time slot first and the others behind them, each group in the
    order of the pool. *)
Theorem X5_possible_stable_partition allLectureSlots facultyPreferredSlots
  faculty st :
  let candidates :=
    (λ l, {| lecture := l;
             isHappy := bool_decide
               (timeSlot l ∈ preferredSlots facultyPreferredSlots faculty) |})
    <$> (filter (λ l, (id l ∉ assignedLectureSlots st)
                      ∧ (timeSlot l ∉ assignedTimes faculty st))
           allLectureSlots) in
  possible allLectureSlots facultyPreferredSlots faculty st
  = filter (λ c, isHappy c = true) candidates
    ++ filter (λ c, isHappy c = false) candidates.
Proof. apply Array_sort_happyFirst. Qed.


(** ** Events of the loop over the candidates *)

Lemma foldl_tryCandidate_posted (Q : list Event → Prop) recurse f cur cs st :
  (∀ c st', Q (posted st') → Q (posted (recurse (cur + penalty c)%Z st'))) →
  Q (posted st) →
  Q (posted (foldl (tryCandidate recurse f cur) st cs)).
Proof.
  intros Hrec. revert st.
  induction cs as [|c cs IH]; intros st Hst; simpl; [done|].
  apply IH. unfold tryCandidate. simpl. by apply (Hrec c).
Qed.

(** ** The scores lie between 0 and the number of faculty members *)

Lemma solveFrom_scoreWithin allLectureSlots facultyPreferredSlots lo hi
  rest i cur st :
  (lo ≤ cur)%Z → (cur + Z.of_nat (length rest) ≤ hi)%Z →
  Forall (scoreWithin lo hi) (posted st) →
  Forall (scoreWithin lo hi)
    (posted (solveFrom allLectureSlots facultyPreferredSlots rest i cur st)).
Proof.
  revert i cur st. induction rest as [|f rest IH]; intros i cur st Hlo Hhi Hst;
    simpl in *.
  - case_decide; [done|]. simpl. apply Forall_app. split; [done|].
    repeat constructor; lia.
  - case_decide; [done|].
    apply (foldl_tryCandidate_posted (Forall (scoreWithin lo hi))).
    + intros c st'. apply IH; unfold penalty; destruct (isHappy c); lia.
    + case_decide; simpl; [|done]. rewrite !Forall_app.
      repeat split; [done|..]; by repeat constructor.
Qed.

(** ** Pairs of progress report and suspension *)

Lemma Paced_app e1 e2 : Paced e1 → Paced e2 → Paced (e1 ++ e2).
Proof.
  intros H1 H2. induction H1; simpl; [done|by constructor..].
Qed.

Lemma solveFrom_Paced allLectureSlots facultyPreferredSlots rest i cur st :
  Paced (posted st) →
  Paced (posted (solveFrom allLectureSlots facultyPreferredSlots rest i cur st)).
Proof.
  revert i cur st. induction rest as [|f rest IH]; intros i cur st Hst; simpl.
  - case_decide; [done|]. simpl. apply Paced_app; [done|].
    by repeat constructor.
  - case_decide; [done|].
    apply (foldl_tryCandidate_posted Paced).
    + intros c st'. apply IH.
    + case_decide as Hc; simpl; [|done]. rewrite <- app_assoc. simpl.
      apply Paced_app; [done|]. by repeat constructor.
Qed.

(** ** The number of candidates tried *)

Lemma tryCandidate_combinations recurse f cur st c :
  combinations (progressState (tryCandidate recurse f cur st c))
  = combinations (progressState
      (recurse (cur + penalty c)%Z (assign f c (countCombination st)))).
Proof. done. Qed.

Lemma foldl_tryCandidate_combinations recurse f cur cs st (lo hi : nat) :
  (∀ cur' st',
     combinations (progressState st') + lo
     ≤ combinations (progressState (recurse cur' st'))
     ≤ combinations (progressState st') + hi) →
  combinations (progressState st) + length cs * S lo
  ≤ combinations (progressState (foldl (tryCandidate recurse f cur) st cs))
  ≤ combinations (progressState st) + length cs * S hi.
Proof.
  intros Hrec. revert st.
  induction cs as [|c cs IH]; intros st; simpl; [lia|].
  specialize (IH (tryCandidate recurse f cur st c)).
  rewrite tryCandidate_combinations in IH.
  specialize (Hrec (cur + penalty c)%Z (assign f c (countCombination st))).
  simpl in Hrec. lia.
Qed.

Lemma possible_length allLectureSlots facultyPreferredSlots f st :
  length (possible allLectureSlots facultyPreferredSlots f st)
  ≤ length allLectureSlots.
Proof.
  unfold possible. rewrite Array_sort_perm, length_fmap. apply length_filter.
Qed.

Lemma solveFrom_combinations allLectureSlots facultyPreferredSlots
  rest i cur st :
  combinations (progressState st)
  ≤ combinations (progressState
      (solveFrom allLectureSlots facultyPreferredSlots rest i cur st))
  ≤ combinations (progressState st)
    + treeSize (length allLectureSlots) (length rest).
Proof.
  revert i cur st. induction rest as [|f rest IH]; intros i cur st; simpl.
  - case_decide; simpl; lia.
  - case_decide; [lia|].
    name_loop_state st1.
    assert (combinations (progressState st1) = combinations (progressState st))
      as <- by (subst st1; by case_decide).
    pose proof (foldl_tryCandidate_combinations
                  (solveFrom allLectureSlots facultyPreferredSlots rest (S i))
                  f cur (possible allLectureSlots facultyPreferredSlots f st1)
                  st1 0 (treeSize (length allLectureSlots) (length rest))) as Hfold.
    pose proof (possible_length allLectureSlots facultyPreferredSlots f st1).
    destruct Hfold as [H1 H2]; [intros cur' st'; rewrite Nat.add_0_r; apply IH|].
    split; [lia|]. etrans; [exact H2|]. nia.
Qed.

(** ** Solutions of a faculty list without duplicates *)

Lemma unhappyCount_snoc entries f c :
  unhappyCount (entries ++ [(f, c)]) = (unhappyCount entries + penalty c)%Z.
Proof.
  unfold unhappyCount, penalty. rewrite filter_app, length_app.
  rewrite filter_cons, filter_nil. simpl.
  destruct (isHappy c); simpl; try case_decide; simpl; try congruence; lia.
Qed.

Lemma foldl_tryCandidate_exact (Q : Event → Prop) recurse f cur cs st :
  f ∉ (schedule st).*1 →
  (∀ c st',
     schedule st' = schedule st ++ [(f, c)] →
     Forall Q (posted st') →
     Forall Q (posted (recurse (cur + penalty c)%Z st'))
     ∧ schedule (recurse (cur + penalty c)%Z st') = schedule st') →
  Forall Q (posted st) →
  Forall Q (posted (foldl (tryCandidate recurse f cur) st cs)).
Proof.
  intros Hf Hrec.
  enough (∀ st', schedule st' = schedule st → Forall Q (posted st') →
            Forall Q (posted (foldl (tryCandidate recurse f cur) st' cs)))
    as H by by apply H.
  induction cs as [|c cs IH]; intros st' Hst' HQ; simpl; [done|].
  destruct (Hrec c (assign f c (countCombination st'))) as [HQ' Hs'].
  { simpl. by rewrite Hst', Map_set_fresh. }
  { done. }
  apply IH; [|done].
  unfold tryCandidate. simpl. fold (penalty c). rewrite Hs'. simpl.
  rewrite Hst', Map_set_fresh, Map_delete_app, Map_delete_absent by done.
  unfold Map_delete. rewrite filter_cons_False by (simpl; auto).
  by rewrite app_nil_r.
Qed.

Lemma solveFrom_exact allFaculty allLectureSlots facultyPreferredSlots
  rest i cur st :
  NoDup allFaculty →
  (schedule st).*1 ++ rest = allFaculty →
  cur = unhappyCount (schedule st) →
  Forall (exactSolution allFaculty) (posted st) →
  Forall (exactSolution allFaculty)
    (posted (solveFrom allLectureSlots facultyPreferredSlots rest i cur st)).
Proof.
  intros Hnd. revert i cur st.
  induction rest as [|f rest IH]; intros i cur st Hkeys Hcur Hst; simpl.
  - case_decide; [done|]. simpl. apply Forall_app. split; [done|].
    repeat constructor; simpl; [by rewrite app_nil_r in Hkeys|done].
  - case_decide; [done|].
    rewrite <- Hkeys in Hnd.
    apply NoDup_app in Hnd as (Hnd1 & Hdisj & [Hf Hnd2]%NoDup_cons).
    name_loop_state st1.
    assert (schedule st1 = schedule st) as Hs1 by (subst st1; by case_decide).
    apply foldl_tryCandidate_exact.
    + rewrite Hs1. intros Hin. apply (Hdisj f Hin). by left.
    + intros c st' Hst' HQ. rewrite Hs1 in Hst'. split.
      * apply IH; [|by rewrite Hst', unhappyCount_snoc, Hcur|done].
        rewrite Hst', fmap_app, <- app_assoc. done.
      * apply solveFrom_restores; [done|].
        intros g Hg. rewrite Hst', fmap_app, elem_of_app. simpl.
        intros [Hin|Hin%list_elem_of_singleton]; [|by subst].
        apply (Hdisj g Hin). by right.
    + subst st1. case_decide; simpl; [|done]. rewrite !Forall_app.
      repeat split; [done|..]; by repeat constructor.
Qed.

(** ** The entries of the emitted schedules *)

Lemma foldl_tryCandidate_entries (Q : string * Assignment → Prop)
  recurse f rest cur cs st :
  (∀ cur' st',
     Forall Q (schedule st') →
     Forall (Forall Q) (solutionSchedules (posted st')) →
     Forall (Forall Q) (solutionSchedules (posted (recurse cur' st')))) →
  (∀ cur' st', scheduleKept rest st' (recurse cur' st')) →
  Forall (λ c, Q (f, c)) cs →
  Forall Q (schedule st) →
  Forall (Forall Q) (solutionSchedules (posted st)) →
  Forall (Forall Q)
    (solutionSchedules (posted (foldl (tryCandidate recurse f cur) st cs))).
Proof.
  intros Hrec Hkept Hcs. revert st.
  induction Hcs as [|c cs Hc _ IH]; intros st Hst Hposted; simpl; [done|].
  apply IH.
  - destruct (tryCandidate_scheduleKept recurse f rest cur st c Hkept)
      as (_ & Hsub & _).
    apply Forall_forall. intros p Hp.
    by apply (proj1 (Forall_forall _ _) Hst), Hsub.
  - unfold tryCandidate. simpl. apply Hrec; [|done]. simpl.
    apply Forall_forall. intros p [->|Hp]%elem_of_Map_set_weak; [done|].
    by apply (proj1 (Forall_forall _ _) Hst).
Qed.

Lemma solveFrom_entries (Q : string * Assignment → Prop)
  allLectureSlots facultyPreferredSlots rest i cur st :
  (∀ f st' c,
     c ∈ possible allLectureSlots facultyPreferredSlots f st' → Q (f, c)) →
  Forall Q (schedule st) →
  Forall (Forall Q) (solutionSchedules (posted st)) →
  Forall (Forall Q)
    (solutionSchedules
       (posted (solveFrom allLectureSlots facultyPreferredSlots rest i cur st))).
Proof.
  intros Hposs. revert i cur st.
  induction rest as [|f rest IH]; intros i cur st Hst Hposted; simpl.
  - case_decide; [done|]. simpl. rewrite solutionSchedules_app.
    apply Forall_app. split; [done|]. by repeat constructor.
  - case_decide; [done|].
    name_loop_state st1.
    apply (foldl_tryCandidate_entries Q _ f rest).
    + intros cur' st'. apply IH.
    + apply solveFrom_scheduleKept.
    + apply Forall_forall. intros c Hc. by apply (Hposs f st1).
    + subst st1. by case_decide.
    + subst st1. case_decide; simpl; [|done].
      rewrite !solutionSchedules_app. simpl. by rewrite !app_nil_r.
Qed.

(** ** Further properties of a run *)

Lemma searchEnd_unfold allFaculty allLectureSlots facultyPreferredSlots b :
  searchEnd allFaculty allLectureSlots facultyPreferredSlots b
  = solveFrom allLectureSlots facultyPreferredSlots allFaculty 0 0%Z
      (initialState b).
Proof. unfold searchEnd, solveForFaculty. by rewrite drop_0. Qed.

Lemma filter_all {A} (P : A → Prop) `{!∀ x, Decision (P x)} (l : list A) :
  Forall P l → filter P l = l.
Proof.
  induction 1 as [|x l Hx _ IH]; [done|].
  by rewrite filter_cons_True, IH.
Qed.

Lemma lastScore_last b scores : lastScore b scores = default b (last scores).
Proof.
  unfold lastScore. revert b. induction scores as [|s scores IH]; intros b;
    simpl; [done|].
  rewrite IH, last_cons. by destruct (last scores).
Qed.

Lemma solutionScores_solutions events :
  solutionScores events
  = snd <$> omap (λ e, match e with
                       | postMessage (solutionUpdate s score) => Some (s, score)
                       | _ => None
                       end) events.
Proof.
  induction events as [|[[]|] events IH]; simpl; by rewrite ?IH.
Qed.

Lemma lastSolution_elem_of events s score :
  lastSolution events = Some (s, score) →
  postMessage (solutionUpdate s score) ∈ events.
Proof.
  intros Hin%last_Some_elem_of.
  apply list_elem_of_omap in Hin as (e & He & Heq).
  destruct e as [[]|]; simplify_eq. done.
Qed.

Lemma solutionSchedules_elem_of events s score :
  postMessage (solutionUpdate s score) ∈ events →
  s ∈ solutionSchedules events.
Proof.
  intros Hin. apply list_elem_of_omap. by eexists.
Qed.

Lemma no_assignment_when_short allFaculty allLectureSlots
  facultyPreferredSlots :
  length allLectureSlots < length allFaculty →
  bruteForceScores allFaculty allLectureSlots facultyPreferredSlots = [].
Proof.
  intros Hshort. unfold bruteForceScores.
  destruct (completeAssignments allFaculty allLectureSlots) as [|a rest] eqn:Ha;
    [done|].
  assert (a ∈ completeAssignments allFaculty allLectureSlots) as Hin
    by (rewrite Ha; by left).
  apply elem_of_completeAssignments in Hin as [Hfs Hc].
  apply completion_valid in Hc as [Hall [Hids _]].
  assert (length ((λ p, id p.2) <$> a) ≤ length (id <$> allLectureSlots)) as Hle.
  { apply submseteq_length, NoDup_submseteq; [done|].
    intros x (p & -> & Hp)%list_elem_of_fmap.
    apply (proj1 (Forall_forall _ _) Hall) in Hp as [Hp _].
    by apply list_elem_of_fmap_2. }
  rewrite !length_fmap in Hle. rewrite <- Hfs, length_fmap in Hshort. lia.
Qed.

Lemma onmessage_unbeaten random d :
  Forall (λ s, (initialBestScore d ≤ s)%Z)
    (bruteForceScores (allFaculty d) (allLectureSlots d)
       (requestPreferences d)) →
  solutionScores (onmessage random (Some d)).1 = []
  ∧ ∃ combos,
      last (onmessage random (Some d)).1
      = Some (postMessage (complete combos (initialBestScore d))).
Proof.
  intros Hnone. rewrite onmessage_start. simpl.
  destruct (searchEnd_bounded (allFaculty d) (allLectureSlots d)
              (requestPreferences d) (initialBestScore d))
    as (Hle & _ & Hatt).
  destruct (searchEnd_advances (allFaculty d) (allLectureSlots d)
              (requestPreferences d) (initialBestScore d)) as [Hd Hb].
  simpl in *.
  assert (bestScore (progressState
            (searchEnd (allFaculty d) (allLectureSlots d)
               (requestPreferences d) (initialBestScore d)))
          = initialBestScore d) as Hbest.
  { destruct Hatt as [?|Hin]; [done|].
    apply (proj1 (Forall_forall _ _) Hnone) in Hin. lia. }
  split.
  - rewrite solutionScores_app, app_nil_r.
    apply (descends_lastScore_eq (initialBestScore d)); congruence.
  - eexists. by rewrite last_snoc, Hbest.
Qed.

(** X6: when no faculty member is listed twice, every [solutionUpdate]
    has the faculty list as the keys of its schedule, in the order of the
    list, and its score is the number of entries whose [isHappy] is
    false. *)
Theorem X6_score_counts_unhappy_entries random d :
  NoDup (allFaculty d) →
  Forall (exactSolution (allFaculty d)) (onmessage random (Some d)).1.
Proof.
  intros Hnd. rewrite onmessage_start. simpl. apply Forall_app.
  split; [|by repeat constructor]. rewrite searchEnd_unfold.
  by apply solveFrom_exact.
Qed.

Lemma X6_score_counts_unhappy_entries_witness :
  NoDup (allFaculty (scenario 2))
  ∧ Forall (exactSolution (allFaculty (scenario 2)))
      (onmessage noRandom (Some (scenario 2))).1.
Proof.
  assert (NoDup (allFaculty (scenario 2))) as H
    by (apply (bool_decide_unpack _); vm_compute; exact I).
  split; [exact H|].
  exact (X6_score_counts_unhappy_entries noRandom (scenario 2) H).
Defined.

(** X7: every lecture slot in an emitted schedule is one of the lecture
    slots of the request. *)
Theorem X7_lectures_come_from_pool random d :
  Forall (Forall (λ p, lecture p.2 ∈ allLectureSlots d))
    (solutionSchedules (onmessage random (Some d)).1).
Proof.
  rewrite onmessage_start. simpl. rewrite solutionSchedules_app, app_nil_r.
  rewrite searchEnd_unfold. apply solveFrom_entries; [|done..].
  by intros f st' c (l & Hl & _ & _ & ->)%elem_of_possible.
Qed.

(** X8: the score of every [solutionUpdate] lies between 0 and the
    number of entries of the faculty list. *)
Theorem X8_scores_between_0_and_faculty_count random d :
  Forall (scoreWithin 0 (Z.of_nat (length (allFaculty d))))
    (onmessage random (Some d)).1.
Proof.
  rewrite onmessage_start. simpl. apply Forall_app.
  split; [|by repeat constructor]. rewrite searchEnd_unfold.
  apply solveFrom_scoreWithin; [lia|lia|done].
Qed.

(** X9: in the events of a run every [progressUpdate] carries a count
    that is a multiple of 1000 and is followed at once by a suspension, and
    every suspension follows a [progressUpdate] at once. *)
Theorem X9_suspension_follows_progress random d :
  Paced (onmessage random (Some d)).1.
Proof.
  rewrite onmessage_start. simpl. apply Paced_app.
  - rewrite searchEnd_unfold. apply solveFrom_Paced. constructor.
  - by repeat constructor.
Qed.

(** X10: with m lecture slots and n faculty members the search tries at
    most m + m² + ... + mⁿ candidates. *)
Theorem X10_combinations_at_most_tree_size random allFaculty allLectureSlots
  teacherAvailabilityMap facultyPreferredSlots initialBestScore :
  finalCombinations
    (solveFullSearchInWorker random allFaculty allLectureSlots
       teacherAvailabilityMap facultyPreferredSlots initialBestScore).1
  ≤ treeSize (length allLectureSlots) (length allFaculty).
Proof.
  simpl. rewrite searchEnd_unfold.
  apply (solveFrom_combinations allLectureSlots facultyPreferredSlots
           allFaculty 0 0%Z (initialState initialBestScore)).
Qed.

(** X11: when the faculty list is not empty and [initialBestScore] is
    positive, every lecture slot is tried for the first faculty member: the
    loop over the candidates has no early exit, so [finalCombinations] is at
    least the number of lecture slots. *)
Theorem X11_every_root_candidate_is_tried random allFaculty allLectureSlots
  teacherAvailabilityMap facultyPreferredSlots initialBestScore :
  allFaculty ≠ [] →
  (0 < initialBestScore)%Z →
  length allLectureSlots
  ≤ finalCombinations
      (solveFullSearchInWorker random allFaculty allLectureSlots
         teacherAvailabilityMap facultyPreferredSlots initialBestScore).1.
Proof.
  intros Hne Hpos. simpl. rewrite searchEnd_unfold.
  destruct allFaculty as [|f rest]; [done|]. simpl.
  rewrite decide_False by lia.
  name_loop_state st1.
  pose proof (foldl_tryCandidate_combinations
                (solveFrom allLectureSlots facultyPreferredSlots rest 1)
                f 0%Z (possible allLectureSlots facultyPreferredSlots f st1)
                st1 0 (treeSize (length allLectureSlots) (length rest)))
    as Hfold.
  destruct Hfold as [Hlow _];
    [intros cur' st'; rewrite Nat.add_0_r; apply solveFrom_combinations|].
  assert (length (possible allLectureSlots facultyPreferredSlots f st1)
          = length allLectureSlots) as Hlen.
  { unfold possible. rewrite Array_sort_perm, length_fmap, filter_all; [done|].
    apply Forall_forall. intros l _. subst st1. unfold assignedTimes.
    try case_decide; simpl; rewrite lookup_empty; simpl; set_solver. }
  lia.
Qed.

Lemma X11_every_root_candidate_is_tried_witness :
  length scenarioLectures
  ≤ finalCombinations
      (solveFullSearchInWorker noRandom ["A"; "B"] scenarioLectures ∅
         (requestPreferences (scenario 2)) 2).1.
Proof.
  apply (X11_every_root_candidate_is_tried noRandom ["A"; "B"]
           scenarioLectures ∅ (requestPreferences (scenario 2)) 2%Z);
    [done|lia].
Defined.

(** X12: for every [initialBestScore] the [finalScore] is the smaller of
    [initialBestScore] and the least score of a valid complete assignment,
    and [initialBestScore] when there is no valid complete assignment. *)
Theorem X12_final_score_for_any_bound random allFaculty allLectureSlots
  teacherAvailabilityMap facultyPreferredSlots initialBestScore :
  finalScore
    (solveFullSearchInWorker random allFaculty allLectureSlots
       teacherAvailabilityMap facultyPreferredSlots initialBestScore).1
  = match bruteForceMinimum allFaculty allLectureSlots facultyPreferredSlots with
    | Some least => Z.min initialBestScore least
    | None => initialBestScore
    end.
Proof.
  simpl.
  destruct (searchEnd_bounded allFaculty allLectureSlots facultyPreferredSlots
              initialBestScore) as (Hle & Hlow & Hatt).
  unfold bruteForceMinimum.
  destruct (bruteForceScores allFaculty allLectureSlots facultyPreferredSlots)
    as [|s ss] eqn:Hscores.
  - destruct Hatt as [?|?%elem_of_nil]; done.
  - destruct (foldr_min_least s ss) as [Hin Hleast].
    apply (proj1 (Forall_forall _ _) Hlow) in Hin.
    destruct Hatt as [Heq|Hatt]; [lia|].
    apply (proj1 (Forall_forall _ _) Hleast) in Hatt. lia.
Qed.

(** X13: the [complete] message carries the score of the last
    [solutionUpdate] of the run, and [initialBestScore] when the run posted
    none. *)
Theorem X13_complete_carries_last_solution_score random d :
  ∃ combos,
    last (onmessage random (Some d)).1
    = Some (postMessage
              (complete combos
                 (default (initialBestScore d)
                    (last (solutionScores (onmessage random (Some d)).1))))).
Proof.
  rewrite onmessage_start. simpl. rewrite solutionScores_app, app_nil_r.
  destruct (searchEnd_advances (allFaculty d) (allLectureSlots d)
              (requestPreferences d) (initialBestScore d)) as [_ Hb].
  eexists. by rewrite last_snoc, Hb, lastScore_last.
Qed.

(** X14: with fewer lecture slots than entries of the faculty list the
    run posts no [solutionUpdate] and its [complete] message carries
    [initialBestScore]. *)
Theorem X14_too_few_lecture_slots random d :
  length (allLectureSlots d) < length (allFaculty d) →
  solutionScores (onmessage random (Some d)).1 = []
  ∧ ∃ combos,
      last (onmessage random (Some d)).1
      = Some (postMessage (complete combos (initialBestScore d))).
Proof.
  intros Hshort. apply onmessage_unbeaten.
  by rewrite no_assignment_when_short.
Qed.

Lemma X14_too_few_lecture_slots_witness :
  solutionScores (onmessage noRandom (Some shortRequest)).1 = []
  ∧ ∃ combos,
      last (onmessage noRandom (Some shortRequest)).1
      = Some (postMessage (complete combos 3)).
Proof.
  apply (X14_too_few_lecture_slots noRandom shortRequest). simpl. lia.
Defined.

(** X15: for an empty faculty list and a positive [initialBestScore] the
    run posts the empty schedule with score 0 and then [complete] with no
    candidate tried and [finalScore] 0, without a [progressUpdate]. *)
Theorem X15_empty_faculty_list random d :
  allFaculty d = [] →
  (0 < initialBestScore d)%Z →
  onmessage random (Some d)
  = ([postMessage (solutionUpdate [] 0); postMessage (complete 0 0)],
     fulfilled).
Proof.
  intros Hempty Hpos. rewrite onmessage_start. simpl.
  rewrite searchEnd_unfold, Hempty. simpl. by rewrite decide_False by lia.
Qed.

Lemma X15_empty_faculty_list_witness :
  onmessage noRandom (Some emptyRequest)
  = ([postMessage (solutionUpdate [] 0); postMessage (complete 0 0)],
     fulfilled).
Proof.
  apply (X15_empty_faculty_list noRandom emptyRequest); [reflexivity|].
  simpl. lia.
Defined.

(** X16: when no faculty member is listed twice, the last schedule that a
    run posts is a valid schedule over the faculty list, the number of its
    unhappy entries is the score posted with it and the [finalScore] of the
    [complete] message, and no valid complete assignment scores lower. *)
Theorem X16_last_solution_is_optimal random d s score :
  NoDup (allFaculty d) →
  lastSolution (onmessage random (Some d)).1 = Some (s, score) →
  validSchedule (allFaculty d) (requestPreferences d) s
  ∧ s.*1 = allFaculty d
  ∧ unhappyCount s = score
  ∧ last (onmessage random (Some d)).1
    = Some (postMessage
              (complete
                 (combinations (progressState
                    (searchEnd (allFaculty d) (allLectureSlots d)
                       (requestPreferences d) (initialBestScore d))))
                 score))
  ∧ Forall (λ other, (score ≤ other)%Z)
      (bruteForceScores (allFaculty d) (allLectureSlots d)
         (requestPreferences d)).
Proof.
  intros Hnd Hlast.
  pose proof (lastSolution_elem_of _ _ _ Hlast) as Hin.
  assert (Forall (exactSolution (allFaculty d)) (onmessage random (Some d)).1)
    as Hexact.
  { rewrite onmessage_start. simpl. apply Forall_app.
    split; [|by repeat constructor]. rewrite searchEnd_unfold.
    by apply solveFrom_exact. }
  apply (proj1 (Forall_forall _ _) Hexact) in Hin as Hex.
  destruct Hex as [Hkeys Hcount].
  assert (Forall (validSchedule (allFaculty d) (requestPreferences d))
            (solutionSchedules (onmessage random (Some d)).1)) as Hvalid.
  { rewrite onmessage_start. simpl. rewrite solutionSchedules_app, app_nil_r.
    rewrite searchEnd_unfold.
    apply (solveFrom_valid _ _ _ _ []); [apply onPath_initial|constructor]. }
  apply solutionSchedules_elem_of in Hin.
  apply (proj1 (Forall_forall _ _) Hvalid) in Hin.
  destruct (searchEnd_advances (allFaculty d) (allLectureSlots d)
              (requestPreferences d) (initialBestScore d)) as [_ Hb].
  destruct (searchEnd_bounded (allFaculty d) (allLectureSlots d)
              (requestPreferences d) (initialBestScore d))
    as (_ & Hlow & _).
  simpl in Hb, Hlow.
  assert (bestScore (progressState
            (searchEnd (allFaculty d) (allLectureSlots d)
               (requestPreferences d) (initialBestScore d))) = score)
    as Hbest.
  { rewrite Hb, lastScore_last.
    unfold lastSolution in Hlast. rewrite onmessage_start in Hlast.
    simpl in Hlast. rewrite omap_app in Hlast. simpl in Hlast.
    rewrite app_nil_r in Hlast.
    by rewrite solutionScores_solutions, fmap_last, Hlast. }
  split; [done|]. split; [done|]. split; [done|]. split.
  - rewrite onmessage_start. simpl. by rewrite last_snoc, Hbest.
  - by rewrite <- Hbest.
Qed.

Lemma X16_last_solution_is_optimal_witness :
  let s :=
    [ ("A", {| lecture := {| id := 3; timeSlot := "10am" |};
               isHappy := true |});
      ("B", {| lecture := {| id := 1; timeSlot := "9am" |};
               isHappy := false |}) ] in
  NoDup (allFaculty (scenario 2))
  ∧ lastSolution (onmessage noRandom (Some (scenario 2))).1 = Some (s, 1%Z)
  ∧ validSchedule (allFaculty (scenario 2))
      (requestPreferences (scenario 2)) s
  ∧ unhappyCount s = 1%Z
  ∧ Forall (λ other, (1 ≤ other)%Z)
      (bruteForceScores (allFaculty (scenario 2))
         (allLectureSlots (scenario 2)) (requestPreferences (scenario 2))).
Proof.
  intros s.
  assert (NoDup (allFaculty (scenario 2))) as Hnd
    by (apply (bool_decide_unpack _); vm_compute; exact I).
  assert (lastSolution (onmessage noRandom (Some (scenario 2))).1
          = Some (s, 1%Z)) as Hlast by (vm_compute; reflexivity).
  destruct (X16_last_solution_is_optimal noRandom (scenario 2) s 1%Z Hnd Hlast)
    as (Hvalid & _ & Hcount & _ & Hleast).
  split; [exact Hnd|]. split; [exact Hlast|]. split; [exact Hvalid|].
  split; [exact Hcount|exact Hleast].
Defined.

(** X17: a faculty member for whom the transferred preferences have no
    pair is unhappy in every emitted schedule, whatever lecture slot the
    member holds. *)
Theorem X17_no_preferences_means_unhappy random d f :
  f ∉ (facultyPreferredSlots d).*1 →
  Forall (λ s, ∀ a, (f, a) ∈ s → isHappy a = false)
    (solutionSchedules (onmessage random (Some d)).1).
Proof.
  intros Hf.
  assert (preferredSlots (requestPreferences d) f = ∅) as Hnone.
  { unfold preferredSlots, requestPreferences, Map_of_pairs.
    rewrite reconstruct_lookup, lookup_empty.
    rewrite (filter_key_absent f _ Hf). done. }
  assert (Forall (validSchedule (allFaculty d) (requestPreferences d))
            (solutionSchedules (onmessage random (Some d)).1)) as Hvalid.
  { rewrite onmessage_start. simpl. rewrite solutionSchedules_app, app_nil_r.
    rewrite searchEnd_unfold.
    apply (solveFrom_valid _ _ _ _ []); [apply onPath_initial|constructor]. }
  eapply Forall_impl; [exact Hvalid|].
  intros s (_ & _ & Hhappy) a Hin.
  apply (proj1 (Forall_forall _ _) Hhappy) in Hin. simpl in Hin.
  rewrite Hin, Hnone. apply bool_decide_eq_false. set_solver.
Qed.

Lemma X17_no_preferences_means_unhappy_witness :
  Forall (λ s, ∀ a, ("A", a) ∈ s → isHappy a = false)
    (solutionSchedules (onmessage noRandom (Some wideRequest)).1).
Proof.
  apply (X17_no_preferences_means_unhappy noRandom wideRequest "A").
  simpl. apply not_elem_of_nil.
Defined.
